(** * Verification of the telescope data pipeline core (core.py)

    A shallow embedding of the numeric core of [core.py]: the FWHM
    estimator [find_fwhm], the star matcher [calculate_shift], the frame
    shifter [roll_image], the registration orchestrator [image_combiner],
    the star selector [image_mask], the local background subtractor
    [bkg_sub] and the image importer [import_images].

    Pixels, centroids and fluxes are numpy [float64] values: they are
    modelled by Rocq's primitive binary64 floats, whose operations are
    the IEEE 754 ones numpy uses, NaN included.  Python integers are [Z].
    Python exceptions are explicit: a function that can raise returns a
    [result].  The collaborators the module imports (sigma-clipped
    statistics, the DAOFIND detector, the least-squares fitter, the
    annulus photometry, the ccdproc combiner, the FITS reader, the
    table sort) are Section variables. *)

From Stdlib Require Import ZArith List Bool Lia Floats Permutation Sorted RelationClasses.
From Stdlib Require String.
Import ListNotations.

(* ================================================================== *)
(** * Part I: definitions                                              *)
(* ================================================================== *)

(** ** Python exceptions *)

Inductive exn : Type :=
| TypeError | ValueError | IndexError | UnboundLocalError | OverflowError.

Inductive result (A : Type) : Type :=
| Ok (a : A)
| Raise (e : exn).

Arguments Ok {A} a.
Arguments Raise {A} e.

Definition bind {A B : Type} (c : result A) (k : A -> result B) : result B :=
  match c with
  | Ok a => k a
  | Raise e => Raise e
  end.

Declare Scope py_scope.
Delimit Scope py_scope with py.
Notation "x <- c ;; k" := (bind c (fun x => k))
  (at level 61, c at next level, right associativity) : py_scope.
Open Scope py_scope.

(** A [for] loop that builds a list, stopping at the first exception. *)
Fixpoint mapM {A B : Type} (f : A -> result B) (l : list A) : result (list B) :=
  match l with
  | [] => Ok []
  | a :: l' => b <- f a ;; bs <- mapM f l' ;; Ok (b :: bs)
  end.

(** A [for] loop that threads a value, stopping at the first exception. *)
Fixpoint foldM {A S : Type} (f : S -> A -> result S) (l : list A) (s : S) : result S :=
  match l with
  | [] => Ok s
  | a :: l' => s' <- f s a ;; foldM f l' s'
  end.

(** [enumerate l]: the elements of [l] paired with their indices. *)
Fixpoint enumerate_from {A : Type} (k : nat) (l : list A) : list (nat * A) :=
  match l with
  | [] => []
  | a :: l' => (k, a) :: enumerate_from (S k) l'
  end.

Definition enumerate {A : Type} (l : list A) : list (nat * A) := enumerate_from 0 l.

Definition mapi {A B : Type} (f : nat -> A -> B) (l : list A) : list B :=
  map (fun p => f (fst p) (snd p)) (enumerate l).

(** ** binary64 helpers *)

Open Scope float_scope.

(** Python's [float(n)] for an integer [n]: the nearest binary64. *)
Definition Z2f (n : Z) : float := SF2Prim (binary_normalize prec emax n 0 false).

(** The integer a finite float truncates to (Python's [int(x)]). *)
Definition np_int (x : float) : result Z :=
  match Prim2SF x with
  | S754_nan => Raise ValueError
  | S754_infinity _ => Raise OverflowError
  | S754_zero _ => Ok 0%Z
  | S754_finite s m e =>
      let mag := match e with
                 | Zneg p => Z.shiftr (Zpos m) (Zpos p)
                 | _ => Z.shiftl (Zpos m) e
                 end in
      Ok (if s then Z.opp mag else mag)
  end.

(** [np.round(x, 0)]: round half to even, the sign kept (so [-0.3] gives
    [-0.0]); NaN, infinities and integral values are returned as they
    are. *)
Definition np_round (x : float) : float :=
  match Prim2SF x with
  | S754_finite s m (Zneg p) =>
      let q := Z.shiftr (Zpos m) (Zpos p) in
      let r := Z.land (Zpos m) (Z.ones (Zpos p)) in
      let half := Z.shiftl 1 (Zpos p - 1) in
      let up := match Z.compare r half with
                | Lt => false
                | Gt => true
                | Eq => Z.odd q
                end in
      let mag := Z2f (if up then q + 1 else q) in
      if s then - mag else mag
  | _ => x
  end.

(** numpy's [minimum] and [maximum] on two values: NaN propagates. *)
Definition fmin (a b : float) : float := if (a <=? b) || is_nan a then a else b.
Definition fmax (a b : float) : float := if (b <=? a) || is_nan a then a else b.

(** [np.min] and [np.max]: a reduction, [ValueError] on an empty array. *)
Definition np_min (l : list float) : result float :=
  match l with
  | [] => Raise ValueError
  | x :: r => Ok (fold_left fmin r x)
  end.

Definition np_max (l : list float) : result float :=
  match l with
  | [] => Raise ValueError
  | x :: r => Ok (fold_left fmax r x)
  end.

(** Boolean-mask indexing [a[mask]]. *)
Fixpoint np_mask {A : Type} (mask : list bool) (a : list A) : list A :=
  match mask, a with
  | b :: mask', x :: a' => if b then x :: np_mask mask' a' else np_mask mask' a'
  | _, _ => []
  end.

(** The truth value of an array in an [if]: that of its only element; an
    empty array is false (numpy before 2.2, which the module's use of
    [np.int] implies); more than one element raises [ValueError]. *)
Definition truth (a : list bool) : result bool :=
  match a with
  | [] => Ok false
  | [b] => Ok b
  | _ => Raise ValueError
  end.

(** Storing an array into one cell ([diff[i, 0] = a]): it must hold
    exactly one element. *)
Definition item {A : Type} (a : list A) : result A :=
  match a with
  | [x] => Ok x
  | _ => Raise ValueError
  end.

(** Ascending stable sort, NaN last (numpy's order). *)
Definition np_lt (a b : float) : bool := (a <? b) || (is_nan b && negb (is_nan a)).

Fixpoint insert_by {A : Type} (key : A -> float) (x : A) (l : list A) : list A :=
  match l with
  | [] => [x]
  | y :: l' => if np_lt (key x) (key y) then x :: l else y :: insert_by key x l'
  end.

Definition sort_by {A : Type} (key : A -> float) (l : list A) : list A :=
  fold_left (fun acc x => insert_by key x acc) l [].

(** [np.median] of a 1-D array: NaN when the array is empty or holds a
    NaN, else the middle of the sorted values (the mean of the two middle
    ones for an even length). *)
Definition np_median (l : list float) : float :=
  if existsb is_nan l then nan
  else
    let s := sort_by (fun x => x) l in
    let n := length s in
    match n with
    | O => nan
    | _ =>
        if Nat.even n
        then (nth (n / 2 - 1) s nan + nth (n / 2) s nan) / 2
        else nth (n / 2) s nan
    end.

(** ** Images and slices *)

(** A 2-D numpy array, row-major: [image[r][c]]. *)
Definition image : Type := list (list float).

Definition shape0 (im : image) : Z := Z.of_nat (length im).
Definition shape1 (im : image) : Z := Z.of_nat (length (hd [] im)).

(** Python's reading of a slice bound on a sequence of length [n]: a
    negative bound counts from the end, and both ends are clipped. *)
Definition slice_bound (n : nat) (i : Z) : nat :=
  if (i <? 0)%Z then Z.to_nat (Z.max (i + Z.of_nat n) 0)
  else Nat.min (Z.to_nat i) n.

(** [l[start:stop]] *)
Definition py_slice {A : Type} (l : list A) (start stop : Z) : list A :=
  let lo := slice_bound (length l) start in
  let hi := slice_bound (length l) stop in
  firstn (hi - lo) (skipn lo l).

(** [l[start:stop] = v] for a scalar [v] (numpy broadcasting). *)
Definition fill_slice {A : Type} (f : A -> A) (l : list A) (start stop : Z) : list A :=
  let lo := slice_bound (length l) start in
  let hi := slice_bound (length l) stop in
  mapi (fun k x => if (lo <=? k)%nat && (k <? hi)%nat then f x else x) l.

(** [im[r0:r1, c0:c1]] *)
Definition slice2 (im : image) (r0 r1 c0 c1 : Z) : image :=
  map (fun row => py_slice row c0 c1) (py_slice im r0 r1).

(** [im[r0:r1, c0:c1] = 0], in place: the result is the array the caller
    holds afterwards. *)
Definition zero_slice2 (im : image) (r0 r1 c0 c1 : Z) : image :=
  fill_slice (fun row => fill_slice (fun _ => 0) row c0 c1) im r0 r1.

(** [np.where(a == v)[0][0], np.where(a == v)[1][0]]: the first cell, in
    row-major order, that equals [v]; [None] when there is none (the
    indexing [[0]] then raises [IndexError]). *)
Fixpoint find_col (v : float) (row : list float) (c : nat) : option nat :=
  match row with
  | [] => None
  | x :: row' => if x =? v then Some c else find_col v row' (S c)
  end.

Fixpoint where_first_from (v : float) (a : image) (r : nat) : option (nat * nat) :=
  match a with
  | [] => None
  | row :: a' =>
      match find_col v row 0 with
      | Some c => Some (r, c)
      | None => where_first_from v a' (S r)
      end
  end.

Definition where_first (a : image) (v : float) : option (nat * nat) :=
  where_first_from v a 0.

(** [np.roll] along one axis: [result[offset:] = a[:-offset]] and
    [result[:offset] = a[-offset:]], with [offset = shift % len(a)]. *)
Definition np_roll1 {A : Type} (l : list A) (shift : Z) : list A :=
  let n := length l in
  let offset := Z.to_nat (shift mod (if (n =? 0)%nat then 1 else Z.of_nat n)) in
  if (offset =? 0)%nat then l
  else skipn (n - offset) l ++ firstn (n - offset) l.

(** [np.roll(im, (dy, dx), axis=(0, 1))] *)
Definition np_roll (im : image) (dy dx : Z) : image :=
  np_roll1 (map (fun row => np_roll1 row dx) im) dy.

(** ** Star tables *)

(** One row of the detector's table (the columns the core reads). *)
Record source : Type := mkSource {
  id : Z;
  xcentroid : float;
  ycentroid : float;
  peak : float;
  flux : float
}.

(** What [find_stars] returns: a table, or [None] when nothing is found. *)
Definition detection : Type := option (list source).

(** One row of the table [image_mask] builds: columns x, y, flux, id, peak. *)
Record star : Type := mkStar {
  star_x : float;
  star_y : float;
  star_flux : float;
  star_id : Z;
  star_peak : float
}.

(** One row of the array [calculate_shift] returns:
    (total distance, dx, dy). *)
Definition shift_row : Type := (float * float * float)%type.

Definition nan_row : shift_row := (nan, nan, nan).

(** ** Star matcher: [calculate_shift] (core.py 148-177) *)

(** Subscripting a table; on [None] Python raises [TypeError]. *)
Definition column {A : Type} (t : detection) (f : source -> A) : result (list A) :=
  match t with
  | Some rows => Ok (map f rows)
  | None => Raise TypeError
  end.

(** The body of the loop for the reference star at ([x1], [y1]). *)
Definition shift_of (x1 y1 : float) (stars2 : detection) : result shift_row :=
  x2 <- column stars2 xcentroid ;;
  let dx := map (fun x => x1 - x) x2 in
  y2 <- column stars2 ycentroid ;;
  let dy := map (fun y => y1 - y) y2 in
  let distances :=
    map (fun d => abs (sqrt (fst d * fst d + snd d * snd d))) (combine dx dy) in
  m <- np_min distances ;;
  let match_ := map (fun d => d =? m) distances in
  near <- truth (map (fun d => d <? 20) (np_mask match_ distances)) ;;
  if near then
    d0 <- item (np_mask match_ distances) ;;
    d1 <- item (np_mask match_ dx) ;;
    d2 <- item (np_mask match_ dy) ;;
    Ok (d0, d1, d2)
  else Ok nan_row.

Definition calculate_shift (stars1 stars2 : detection) : result (list shift_row) :=
  x1 <- column stars1 xcentroid ;;
  y1 <- column stars1 ycentroid ;;
  mapM (fun p => shift_of (fst p) (snd p) stars2) (combine x1 y1).

(** ** Frame shifter: [roll_image] (core.py 179-213) *)

Definition roll_image (im : image) (diff : list shift_row) (threshold : float)
  : result image :=
  let offset := np_median (map (fun r => fst (fst r)) diff) in
  if threshold <=? offset then
    let xshift := np_median (map (fun r => snd (fst r)) diff) in
    let yshift := np_median (map snd diff) in
    xshift_int <- np_int (np_round xshift) ;;
    yshift_int <- np_int (np_round yshift) ;;
    Ok (np_roll im yshift_int xshift_int)
  else Ok im.

(** ** FWHM estimator: [find_fwhm] (core.py 52-114) *)

(** [astropy.stats.gaussian_sigma_to_fwhm], 2 sqrt(2 ln 2) =
    2.3548200450309493 as a binary64. *)
Definition gaussian_sigma_to_fwhm : float := 0x1.2d6abe44afc43p+1.

(** The best-fit parameters [curve_fit] returns for the 2-D Gaussian:
    x0, y0, sig_x, sig_y, A, off. *)
Record popt : Type := mkPopt {
  fit_x0 : float; fit_y0 : float;
  fit_sig_x : float; fit_sig_y : float;
  fit_A : float; fit_off : float
}.

(** How a run of the loop ended (a ghost value: nothing reads it). *)
Inductive exit_kind : Type :=
| ExitGuard    (* the [while max_peak >= 0] test failed *)
| ExitFit      (* [if fwhm > 2: break] *)
| ExitCount    (* [if count > 100: ... break] *)
| ExitNoise    (* [if max_peak < 1000: ... break] *)
| ExitRaise.   (* an exception left the function *)

(** The variables of the loop.  [image] is the caller's array, which the
    function writes to in place; [search_image] is a numpy view of it, so
    it always reads as [image[100:-100, 100:-100]].  [fwhm] and [im_sig]
    are unbound until their first assignment.  [ls_fits] is a ghost
    counter of the passes that took the unsaturated branch. *)
Record loop_state : Type := mkLoop {
  ls_image : image;
  ls_max_peak : float;
  ls_count : Z;
  ls_fwhm : option float;
  ls_im_sig : option float;
  ls_fits : nat
}.

(** What a call leaves behind: the value returned or the exception
    raised, the caller's array after the call, and the final counters. *)
Record outcome : Type := mkOutcome {
  out_value : result (float * float);
  out_image : image;
  out_count : Z;
  out_fits : nat;
  out_exit : exit_kind
}.

Definition interior (im : image) : image := slice2 im 100 (-100) 100 (-100).

(** [np.max] of a 2-D array. *)
Definition np_max2 (a : image) : result float := np_max (concat a).

(** [return fwhm, im_sig] *)
Definition return_pair (fwhm im_sig : option float) : result (float * float) :=
  match fwhm, im_sig with
  | Some f, Some s => Ok (f, s)
  | _, _ => Raise UnboundLocalError
  end.

(** The end of a pass that rejected its peak, common to both branches:
    zero the cutout around ([r], [c]) in the caller's array, rescan the
    interior for the new [max_peak], then the two bail-out tests. *)
Definition rescan (im : image) (size r c count : Z)
                  (fwhm im_sig : option float) (fits : nat)
  : loop_state + outcome :=
  let im' := zero_slice2 im (r - size) (r + size) (c - size) (c + size) in
  match np_max2 (interior im') with
  | Raise e => inr (mkOutcome (Raise e) im' count fits ExitRaise)
  | Ok max_peak' =>
      if (100 <? count)%Z then
        inr (mkOutcome (Ok (0, 0)) im' count fits ExitCount)
      else if max_peak' <? 1000 then
        inr (mkOutcome (Ok (0, 0)) im' count fits ExitNoise)
      else inl (mkLoop im' max_peak' count fwhm im_sig fits)
  end.

Section FindFwhm.

(** The median of [sigma_clipped_stats(image, sigma=2.0)]. *)
Variable sigma_clipped_median : image -> float.

(** [curve_fit] on the cutout [star] with the initial guess
    [size, size, 3, 3, 10000, median_val]; [None] when it raises (the
    bare [except:] catches everything). *)
Variable curve_fit : image -> Z -> float -> option popt.

(** One test of the [while] condition followed, when it holds, by one
    pass through the body: either the next state or the way out. *)
Definition loop_pass (size : Z) (median_val : float) (st : loop_state)
  : loop_state + outcome :=
  let im := ls_image st in
  let max_peak := ls_max_peak st in
  if negb (0 <=? max_peak) then
    inr (mkOutcome (return_pair (ls_fwhm st) (ls_im_sig st)) im
           (ls_count st) (ls_fits st) ExitGuard)
  else
    let count := (ls_count st + 1)%Z in
    match where_first (interior im) max_peak with
    | None => inr (mkOutcome (Raise IndexError) im count (ls_fits st) ExitRaise)
    | Some (rs, cs) =>
        let r := (Z.of_nat rs + 100)%Z in
        let c := (Z.of_nat cs + 100)%Z in
        if max_peak <? 50000 then
          let star := slice2 im (r - size) (r + size) (c - size) (c + size) in
          let fits := S (ls_fits st) in
          let '(fwhm, im_sig) :=
            match curve_fit star size median_val with
            | Some p =>
                let im_sig := (fit_sig_x p + fit_sig_y p) / 2 in
                (im_sig * gaussian_sigma_to_fwhm, Some im_sig)
            | None => (0, ls_im_sig st)
            end in
          if 2 <? fwhm then
            inr (mkOutcome (return_pair (Some fwhm) im_sig) im count fits ExitFit)
          else rescan im size r c count (Some fwhm) im_sig fits
        else rescan im size r c count (ls_fwhm st) (ls_im_sig st) (ls_fits st)
    end.

(** The [while] loop, run for at most [fuel] passes. *)
Fixpoint loop (fuel : nat) (size : Z) (median_val : float) (st : loop_state)
  : option outcome :=
  match fuel with
  | O => None
  | S fuel' =>
      match loop_pass size median_val st with
      | inr out => Some out
      | inl st' => loop fuel' size median_val st'
      end
  end.

Definition find_fwhm_fuel (fuel : nat) (im : image) (size : Z) : option outcome :=
  let median_val := sigma_clipped_median im in
  match np_max2 (interior im) with
  | Raise e => Some (mkOutcome (Raise e) im 0 0 ExitRaise)
  | Ok max_peak => loop fuel size median_val (mkLoop im max_peak 0 None None 0)
  end.

(** [find_fwhm(image, size)]: 101 passes are always enough, as Part II
    proves, so the result is never [None]. *)
Definition find_fwhm (im : image) (size : Z) : option outcome :=
  find_fwhm_fuel 101 im size.

End FindFwhm.

(** ** Registration orchestrator: [image_combiner] (core.py 245-279) *)

(** The last element a [for] loop bound its variable to; [None] when the
    loop body never ran. *)
Fixpoint last_bound {A : Type} (l : list A) : option A :=
  match l with
  | [] => None
  | [a] => Some a
  | _ :: l' => last_bound l'
  end.

Section ImageCombiner.

(** [find_stars(image, sigma, peak)]: the DAOFIND table, [None] when no
    source is found. *)
Variable find_stars : image -> float -> float -> detection.

(** [median_combiner(images)]: ccdproc's sigma-clipped median. *)
Variable median_combiner : list image -> result image.

(** The result is [Ok None] for Python's [None]. *)
Definition image_combiner (im_data : list image) (im_sig : float)
  : result (option image) :=
  let stars := map (fun i => find_stars i im_sig 100000) im_data in
  match last_bound stars with
  | None => Raise UnboundLocalError            (* [s] was never assigned *)
  | Some None => Ok None                       (* [if s is None] *)
  | Some (Some _) =>
      diffs <- mapM (fun s => calculate_shift (nth 0 stars None) s) stars ;;
      images <- mapM (fun p => roll_image (fst p) (snd p) 0.5)
                     (combine im_data diffs) ;;
      median_image <- median_combiner images ;;
      Ok (Some median_image)
  end.

End ImageCombiner.

(** ** Star selector: [image_mask] (core.py 281-342) *)

(** [Table.remove_rows(idx)]: [keep_mask[idx] = False], negative indices
    counting from the end, [IndexError] on an index out of range. *)
Definition row_index (n : nat) (i : Z) : result nat :=
  if ((0 <=? i) && (i <? Z.of_nat n))%Z then Ok (Z.to_nat i)
  else if ((- Z.of_nat n <=? i) && (i <? 0))%Z then Ok (Z.to_nat (i + Z.of_nat n))
  else Raise IndexError.

Definition remove_rows {A : Type} (idx : list Z) (tbl : list A) : result (list A) :=
  ks <- mapM (row_index (length tbl)) idx ;;
  Ok (map snd (filter (fun p => negb (existsb (Nat.eqb (fst p)) ks)) (enumerate tbl))).

(** One sort that [Table.sort('flux', reverse=True)] may be: the stable
    ascending sort, reversed.  The library's sort is numpy's default
    argsort, which is not stable, so this one only stands in for it
    where a statement is run on a table. *)
Definition sort_flux_reverse (tbl : list star) : list star :=
  rev (sort_by star_flux tbl).

Definition separation (a b : star) : float :=
  let dx := star_x a - star_x b in
  let dy := star_y a - star_y b in
  abs (sqrt (dx * dx + dy * dy)).

(** The two nested loops over [stars_tbl['id']] that fill [d]. *)
Definition crowded_rows (tbl : list star) (fwhm : float) : list Z :=
  flat_map (fun pi =>
    flat_map (fun pj =>
      if negb (star_id (snd pi) =? star_id (snd pj))%Z then
        let threshold := 5 * fwhm in
        if separation (snd pi) (snd pj) <=? threshold
        then [Z.of_nat (fst pi)] else []
      else [])
      (enumerate tbl))
    (enumerate tbl).

(** The loop over [stars_tbl['peak']] that appends to [d]. *)
Definition faint_rows (tbl : list star) (min_peak : float) : list Z :=
  flat_map (fun p => if star_peak (snd p) <=? min_peak then [Z.of_nat (fst p)] else [])
           (enumerate tbl).

Section ImageMask.

(** [Table.sort('flux', reverse=True)]: numpy's default argsort on the
    flux column, the index array then reversed.  That sort is not
    stable: the order it leaves rows of equal flux in is not fixed by
    the library, so the sort is a parameter, and the statements hold
    for every sort that rearranges the rows into descending flux
    ([sorts_flux_reverse] below). *)
Variable table_sort_reverse : list star -> list star.

Definition image_mask (im : image) (sources : list source)
                      (fwhm bkg bkg_std : float) : result (list star) :=
  let size := 100%Z in
  let hsize := Z2f (size - 1) / 2 in
  let mask :=
    map (fun s =>
           (hsize <? xcentroid s) && (xcentroid s <? Z2f (shape1 im - 1) - hsize) &&
           (hsize <? ycentroid s) && (ycentroid s <? Z2f (shape0 im - 1) - hsize))
        sources in
  let stars_tbl :=
    np_mask mask
      (map (fun s => mkStar (xcentroid s) (ycentroid s) (flux s) (id s) (peak s))
           sources) in
  let d := crowded_rows stars_tbl fwhm in
  let min_peak := bkg + 10 * bkg_std in
  let d := d ++ faint_rows stars_tbl min_peak in
  stars_tbl <- remove_rows d stars_tbl ;;
  let stars_tbl := table_sort_reverse stars_tbl in
  if (10 <? length stars_tbl)%nat then
    remove_rows [-5; -4; -3; -2; -1; 0; 1; 2; 3; 4]%Z stars_tbl
  else Ok stars_tbl.

End ImageMask.

(** ** Local background subtractor: [bkg_sub] (core.py 344-382) *)

Section BkgSub.

(** The sigma-clipped median of [image_lbs] over the annulus of radii
    20 and 30 around [position] (core.py 367-373). *)
Variable annulus_median : image -> float -> float -> result float.

(** [r > p - size/2 and r < p + size/2] for an index [r]. *)
Definition in_window (p : Z) (size : float) (r : nat) : bool :=
  (Z2f p - size / 2 <? Z2f (Z.of_nat r)) && (Z2f (Z.of_nat r) <? Z2f p + size / 2).

(** The two nested loops over the pixels of [image_lbs]. *)
Definition subtract_window (im : image) (pos0 pos1 : Z) (size bkg_median : float)
  : image :=
  mapi (fun r row =>
          if in_window pos1 size r then
            mapi (fun c v => if in_window pos0 size c then v - bkg_median else v) row
          else row)
       im.

(** The body of the loop over the stars. *)
Definition bkg_sub_star (fwhm : float) (image_lbs : image) (s : star)
  : result image :=
  bkg_median <- annulus_median image_lbs (star_x s) (star_y s) ;;
  pos0 <- np_int (np_round (star_x s)) ;;
  pos1 <- np_int (np_round (star_y s)) ;;
  let size := 5 * fwhm in
  Ok (subtract_window image_lbs pos0 pos1 size bkg_median).

(** [image_lbs] starts as a deep copy, so the argument is not written
    to; the value returned is the copy. *)
Definition bkg_sub (im : image) (stars_tbl : list star) (fwhm : float)
  : result image :=
  foldM (bkg_sub_star fwhm) stars_tbl im.

End BkgSub.

(** ** Vocabulary of the statements *)

(** The order of binary64 values other than NaN, read off their sign,
    exponent and mantissa: a key in [Z * Z * Z], ordered
    lexicographically. *)
Definition sf_key (f : spec_float) : Z * Z * Z :=
  match f with
  | S754_zero _ => (0, 0, 0)%Z
  | S754_infinity s => (if s then (-2)%Z else 2%Z, 0%Z, 0%Z)
  | S754_nan => (0, 0, 0)%Z
  | S754_finite s m e => if s then ((-1)%Z, (- e)%Z, Zneg m) else (1%Z, e, Zpos m)
  end.

Definition fkey (x : float) : Z * Z * Z := sf_key (Prim2SF x).

Definition lex3 (a b : Z * Z * Z) : comparison :=
  match (fst (fst a) ?= fst (fst b))%Z with
  | Eq => match (snd (fst a) ?= snd (fst b))%Z with
          | Eq => (snd a ?= snd b)%Z
          | c => c
          end
  | c => c
  end.

Definition lexlt (a b : Z * Z * Z) : Prop :=
  (fst (fst a) < fst (fst b) \/
   (fst (fst a) = fst (fst b) /\
    (snd (fst a) < snd (fst b) \/
     (snd (fst a) = snd (fst b) /\ snd a < snd b))))%Z.

(** The distance [calculate_shift] computes between a reference star
    and a target star, and the row it stores for a matched pair. *)
Definition dist (s t : source) : float :=
  let dx := xcentroid s - xcentroid t in
  let dy := ycentroid s - ycentroid t in
  abs (sqrt (dx * dx + dy * dy)).

Definition matched_row (s t : source) : shift_row :=
  (dist s t, xcentroid s - xcentroid t, ycentroid s - ycentroid t).

(** Row [j] of [stars2], [t], is a target star nearest to [s]: no target
    star is closer. *)
Definition nearest (s : source) (stars2 : list source) (j : nat) (t : source) : Prop :=
  nth_error stars2 j = Some t /\
  forall u, In u stars2 -> (dist s t <=? dist s u) = true.

(** No reference star has two nearest target stars. *)
Definition no_ties (stars1 stars2 : list source) : Prop :=
  forall s, In s stars1 ->
  forall j k t u, nearest s stars2 j t -> nearest s stars2 k u -> j = k.

(** The frame shifter as the specification words it: the medians are
    taken over the valid records only, those whose distance is not the
    NaN sentinel.  It is compared with [roll_image] below. *)
Definition is_sentinel (r : shift_row) : bool := is_nan (fst (fst r)).

Definition roll_image_valid_only (im : image) (diff : list shift_row)
                                 (threshold : float) : result image :=
  let valid := filter (fun r => negb (is_sentinel r)) diff in
  let offset := np_median (map (fun r => fst (fst r)) valid) in
  if offset <? threshold then Ok im
  else
    let xshift := np_median (map (fun r => snd (fst r)) valid) in
    let yshift := np_median (map snd valid) in
    xshift_int <- np_int (np_round xshift) ;;
    yshift_int <- np_int (np_round yshift) ;;
    Ok (np_roll im yshift_int xshift_int).

(** A 3 x 4 image with twelve different pixels. *)
Definition image_3x4 : image := [[1; 2; 3; 4]; [5; 6; 7; 8]; [9; 10; 11; 12]].

(** Stand-ins for the collaborators, to run the orchestrator on concrete
    frames: a detector that reports one star at (50, 50) where the frame
    has a positive pixel and nothing ([None]) elsewhere, and a combiner
    that returns the first frame. *)
Definition one_star_detector (im : image) (sigma peak_max : float) : detection :=
  match np_max2 im with
  | Ok m => if 0 <? m then Some [mkSource 1 50 50 m 100] else None
  | Raise _ => None
  end.

Definition first_frame_combiner (images : list image) : result image :=
  match images with
  | im :: _ => Ok im
  | [] => Raise ValueError
  end.

Definition dark_3x4 : image := [[0; 0; 0; 0]; [0; 0; 0; 0]; [0; 0; 0; 0]].

(** A pixel after [find_fwhm] wrote to the image: kept, or zeroed. *)
Definition faded (x' x : float) : Prop := x' = x \/ x' = 0.

(** What holds of the loop variables each time the [while] test is
    reached: [max_peak] is the maximum of the interior, the counter is
    between 0 and 100 and bounds the ghost counter, nothing is bound
    before the first pass, and after a pass [max_peak] is at least the
    noise floor. *)
Definition loop_inv (st : loop_state) : Prop :=
  np_max2 (interior (ls_image st)) = Ok (ls_max_peak st) /\
  (0 <= ls_count st <= 100)%Z /\
  (Z.of_nat (ls_fits st) <= ls_count st)%Z /\
  (ls_count st = 0%Z -> ls_fwhm st = None /\ ls_im_sig st = None) /\
  ((0 < ls_count st)%Z -> (1000 <=? ls_max_peak st) = true).

(** How a call can end, by the way out of the loop. *)
Definition exit_spec (out : outcome) : Prop :=
  match out_exit out with
  | ExitFit =>
      (1 <= out_count out <= 101)%Z /\
      exists fwhm im_sig, out_value out = Ok (fwhm, im_sig) /\ (2 <? fwhm) = true
  | ExitCount =>
      out_count out = 101%Z /\ out_value out = Ok (0, 0)
  | ExitNoise =>
      (1 <= out_count out <= 100)%Z /\ out_value out = Ok (0, 0) /\
      exists m, np_max2 (interior (out_image out)) = Ok m /\ (m <? 1000) = true
  | ExitGuard =>
      out_count out = 0%Z /\ out_value out = Raise UnboundLocalError
  | ExitRaise =>
      out_count out = 0%Z /\ out_value out = Raise ValueError
  end.

(** Stand-ins for the collaborators of [find_fwhm], and test images: a
    median of 0, a fit that always fails, a fit that always reports
    sigma = 3 on both axes (an FWHM of about 7.06). *)
Definition zero_median (im : image) : float := 0.

Definition no_fit (star : image) (size : Z) (median_val : float) : option popt := None.

Definition fit_sigma_3 (star : image) (size : Z) (median_val : float) : option popt :=
  Some (mkPopt (Z2f size) (Z2f size) 3 3 10000 median_val).

Definition image_of (h w : nat) (f : nat -> nat -> float) : image :=
  map (fun r => map (fun c => f r c) (seq 0 w)) (seq 0 h).

(** 201 x 201, every pixel -1: the interior is the single pixel
    (100, 100). *)
Definition negative_201 : image := image_of 201 201 (fun _ _ => -1).

(** 201 x 201, zero but for a saturated pixel of 60000 at (100, 100). *)
Definition saturated_201 : image :=
  image_of 201 201 (fun r c => if (r =? 100)%nat && (c =? 100)%nat then 60000 else 0).

(** 201 x 302, zero but for row 100: 101 saturated pixels of 60000 in
    columns 100 to 200, then an unsaturated peak of 5000 in column 201. *)
Definition saturated_row : image :=
  image_of 201 302
    (fun r c =>
       if (r =? 100)%nat then
         if (100 <=? c)%nat && (c <=? 200)%nat then 60000
         else if (c =? 201)%nat then 5000 else 0
       else 0).


(** What a run returned, without the image. *)
Definition run_summary (o : option outcome)
  : option (result (float * float) * Z * nat * exit_kind) :=
  option_map (fun o => (out_value o, out_count o, out_fits o, out_exit o)) o.


(** The rows of the detection table as [image_mask] copies them. *)
Definition to_star (s : source) : star :=
  mkStar (xcentroid s) (ycentroid s) (flux s) (id s) (peak s).

(** More than 49.5 px away from every border of the image. *)
Definition clear_of_border (im : image) (s : star) : bool :=
  (49.5 <? star_x s) && (star_x s <? Z2f (shape1 im - 1) - 49.5) &&
  (49.5 <? star_y s) && (star_y s <? Z2f (shape0 im - 1) - 49.5).

(** The rows the two nested loops of the code list: some other star of
    [tbl] (another identifier) has a [separation] of at most 5 FWHM. *)
Definition crowded (tbl : list star) (fwhm : float) (s : star) : bool :=
  existsb (fun t => negb (star_id s =? star_id t)%Z &&
                    (separation s t <=? 5 * fwhm)) tbl.

(** The peak is at or below background + 10 stddev. *)
Definition faint (bkg bkg_std : float) (s : star) : bool :=
  star_peak s <=? bkg + 10 * bkg_std.

(** Drop the first five and the last five rows when more than ten. *)
Definition trim5 (tbl : list star) : list star :=
  if (10 <? length tbl)%nat then firstn (length tbl - 10) (skipn 5 tbl) else tbl.

(** A table in descending flux as numpy orders it: no row is followed
    by one that sorts after it in ascending order (a larger flux, NaN
    counting as the largest). *)
Definition flux_descending (tbl : list star) : Prop :=
  StronglySorted (fun a b => np_lt (star_flux a) (star_flux b) = false) tbl.

(** What [Table.sort('flux', reverse=True)] guarantees, whatever it does
    with rows of equal flux. *)
Definition sorts_flux_reverse (sort : list star -> list star) : Prop :=
  forall tbl, Permutation (sort tbl) tbl /\ flux_descending (sort tbl).





(** Fourteen detections on a 300 x 300 frame: twelve isolated bright
    stars on the diagonal with fluxes 100 to 111, a star too close to the
    left border, and a faint star. *)
Definition frame_300 : image := image_of 300 300 (fun _ _ => 0).

Definition diagonal_star (k : nat) : source :=
  mkSource (Z.of_nat k) (Z2f (60 + 15 * Z.of_nat k)) (Z2f (60 + 15 * Z.of_nat k))
           5000 (Z2f (100 + Z.of_nat k)).

Definition fourteen_sources : list source :=
  map diagonal_star (seq 0 12) ++
  [mkSource 12 10 150 5000 500; mkSource 13 150 100 1200 50].


(** The local background subtractor, star by star: the square window
    each star gets, with the background estimate taken for it. *)
Record window : Type := mkWindow {
  w_pos0 : Z;          (* rounded x: the window's centre column *)
  w_pos1 : Z;          (* rounded y: the window's centre row *)
  w_size : float;      (* 5 * fwhm *)
  w_bkg : float        (* the annulus median taken for the star *)
}.

(** Pixel ([r], [c]) lies in the window: strictly within size/2 of the
    centre on both axes. *)
Definition covers (w : window) (r c : nat) : bool :=
  in_window (w_pos1 w) (w_size w) r && in_window (w_pos0 w) (w_size w) c.

(** The windows of the stars, in table order; each estimate is taken
    on the working image, as the earlier stars left it. *)
Fixpoint bkg_windows (annulus_median : image -> float -> float -> result float)
         (fwhm : float) (image_lbs : image) (stars_tbl : list star)
  : result (list window) :=
  match stars_tbl with
  | [] => Ok []
  | s :: rest =>
      bkg_median <- annulus_median image_lbs (star_x s) (star_y s) ;;
      pos0 <- np_int (np_round (star_x s)) ;;
      pos1 <- np_int (np_round (star_y s)) ;;
      let size := 5 * fwhm in
      ws <- bkg_windows annulus_median fwhm
              (subtract_window image_lbs pos0 pos1 size bkg_median) rest ;;
      Ok (mkWindow pos0 pos1 size bkg_median :: ws)
  end.

(** The value of a pixel once every window that covers it has had its
    estimate subtracted, in table order. *)
Fixpoint pixel_after (v : float) (r c : nat) (ws : list window) : float :=
  match ws with
  | [] => v
  | w :: ws' => pixel_after (if covers w r c then v - w_bkg w else v) r c ws'
  end.

Definition image_after (im : image) (ws : list window) : image :=
  mapi (fun r row => mapi (fun c v => pixel_after v r c ws) row) im.

(** The value the specification words for a pixel: the original minus
    the estimate of the last window that covers it. *)
Definition pixel_last_writer (v : float) (r c : nat) (ws : list window) : float :=
  fold_left (fun acc w => if covers w r c then v - w_bkg w else acc) ws v.

(** A stand-in for the annulus photometry (core.py 367-373): the plain
    median of the pixels whose centre is at least 20 and less than 30 px
    from the position.  Where the annulus lies inside the image and all
    its pixels are equal it agrees with the sigma-clipped median, which
    then clips nothing. *)
Definition annulus_plain_median (im : image) (x y : float) : result float :=
  Ok (np_median
        (concat (mapi (fun r row =>
           concat (mapi (fun c v =>
             let dx := Z2f (Z.of_nat c) - x in
             let dy := Z2f (Z.of_nat r) - y in
             let d2 := dx * dx + dy * dy in
             if (400 <=? d2) && (d2 <? 900) then [v] else []) row)) im))).

(** 81 x 81, every pixel 100. *)
Definition flat_81 : image := image_of 81 81 (fun _ _ => 100).

(** Two stars 2 px apart on row 40. *)
Definition close_pair : list star :=
  [mkStar 40 40 1000 1 5000; mkStar 42 40 900 2 5000].

(** The pixel [im[r][c]], NaN outside the image. *)
Definition pixel (im : image) (r c : nat) : float := nth c (nth r im []) nan.

(** 201 x 201, zero but for an unsaturated peak of 5000 at (100, 100). *)
Definition peak_201 : image :=
  image_of 201 201 (fun r c => if (r =? 100)%nat && (c =? 100)%nat then 5000 else 0).

(** The pair an accepted fit returns, and the cutout it was fitted on:
    [im'] is the caller's array as the call leaves it, its interior
    maximum [m] is at least 0 and below the saturation ceiling, ([r],
    [c]) is the first position of [m], and [curve_fit] succeeded on
    [im'[r-size:r+size, c-size:c+size]]. *)
Definition fit_pair (curve_fit : image -> Z -> float -> option popt)
           (size : Z) (median_val : float) (im' : image) (f s : float) : Prop :=
  exists m rs cs p,
    np_max2 (interior im') = Ok m /\
    (0 <=? m) = true /\ (m <? 50000) = true /\
    where_first (interior im') m = Some (rs, cs) /\
    curve_fit (slice2 im' (Z.of_nat rs + 100 - size) (Z.of_nat rs + 100 + size)
                          (Z.of_nat cs + 100 - size) (Z.of_nat cs + 100 + size))
              size median_val = Some p /\
    s = (fit_sig_x p + fit_sig_y p) / 2 /\
    f = s * gaussian_sigma_to_fwhm /\
    (2 <? f) = true.

(** ** Image importer: [import_images] (core.py 18-50) *)

Section ImportImages.

(** Pixel arrays, headers, and what [fits.open] raises. *)
Variables (array header fits_error : Type).

(** [fits.open(path)]: the HDUs of the file, each with its [data] and
    its [header], or the exception raised. *)
Variable fits_open : String.string -> fits_error + list (array * header).

(** How an import fails: [fits.open] raised, or [hdu[1]] found a file
    with a single HDU ([IndexError]). *)
Inductive import_error : Type :=
| OpenError (e : fits_error)
| HduIndexError.

(** The loop over [im_list], from the two lists built so far; [path] is
    [p + str(i)], with no separator added. *)
Fixpoint import_loop (im_list : list String.string) (p : String.string)
         (im_data : list array) (im_headers : list header)
  : import_error + (list array * list header) :=
  match im_list with
  | [] => inr (im_data, im_headers)
  | i :: rest =>
      let path := String.append p i in
      match fits_open path with
      | inl e => inl (OpenError e)
      | inr hdu =>
          match nth_error hdu 1 with
          | None => inl HduIndexError
          | Some (data, header) =>
              import_loop rest p (im_data ++ [data]) (im_headers ++ [header])
          end
      end
  end.

Definition import_images (im_list : list String.string) (p : String.string)
  : import_error + (list array * list header) :=
  import_loop im_list p [] [].

End ImportImages.

Arguments OpenError {fits_error} e.
Arguments HduIndexError {fits_error}.
Arguments import_loop {array header fits_error} fits_open im_list p im_data im_headers.
Arguments import_images {array header fits_error} fits_open im_list p.

(** File [i] under [p] opens and [ext] is its second HDU. *)
Definition second_hdu {array header fits_error : Type}
           (fits_open : String.string -> fits_error + list (array * header))
           (p i : String.string) (ext : array * header) : Prop :=
  exists hdu, fits_open (String.append p i) = inr hdu /\ nth_error hdu 1 = Some ext.

(** File [i] under [p] fails with [err]. *)
Definition fails_with {array header fits_error : Type}
           (fits_open : String.string -> fits_error + list (array * header))
           (p i : String.string) (err : import_error fits_error) : Prop :=
  match err with
  | OpenError e => fits_open (String.append p i) = inl e
  | HduIndexError =>
      exists hdu, fits_open (String.append p i) = inr hdu /\ nth_error hdu 1 = None
  end.

(* ================================================================== *)
(** * Part II: theorems                                                *)
(* ================================================================== *)

(** ** The order of binary64 values *)

Module FloatOrder.

Lemma is_nan_spec (x : float) : is_nan x = true <-> Prim2SF x = S754_nan.
Proof.
  unfold Prim2SF. destruct (is_nan x).
  - split; reflexivity.
  - split; [discriminate|].
    destruct (PrimFloat.is_zero x); [discriminate|].
    destruct (is_infinity x); [discriminate|].
    destruct (Z.frexp x) as [r e].
    destruct (shr_fexp prec emax (Uint63.to_Z (normfr_mantissa r)) (e - prec) loc_Exact)
      as [shr e'].
    destruct (shr_m shr); discriminate.
Qed.

Lemma not_nan_spec (x : float) : is_nan x = false <-> Prim2SF x <> S754_nan.
Proof.
  rewrite <- is_nan_spec. destruct (is_nan x); split; congruence.
Qed.

Lemma SFcompare_lex (f g : spec_float) :
  f <> S754_nan -> g <> S754_nan ->
  SFcompare f g = Some (lex3 (sf_key f) (sf_key g)).
Proof.
  intros Hf Hg.
  destruct f as [s1 | s1 | | s1 m1 e1]; try congruence;
    destruct g as [s2 | s2 | | s2 m2 e2]; try congruence;
    try (destruct s1; reflexivity);
    try (destruct s2; reflexivity);
    try (destruct s1, s2; reflexivity).
  destruct s1, s2; try reflexivity; unfold lex3; cbn [SFcompare sf_key fst snd].
  rewrite Z.compare_opp, (Z.compare_antisym e1 e2).
  destruct (e1 ?= e2)%Z; reflexivity.
Qed.

Lemma SFcompare_nan_l (g : spec_float) : SFcompare S754_nan g = None.
Proof. reflexivity. Qed.

Lemma SFcompare_nan_r (f : spec_float) : SFcompare f S754_nan = None.
Proof. destruct f; reflexivity. Qed.

(** The three comparisons, read on the keys. *)
Lemma compare_cases (x y : float) :
  (is_nan x = false /\ is_nan y = false /\
   SFcompare (Prim2SF x) (Prim2SF y) = Some (lex3 (fkey x) (fkey y))) \/
  ((is_nan x = true \/ is_nan y = true) /\
   SFcompare (Prim2SF x) (Prim2SF y) = None).
Proof.
  destruct (is_nan x) eqn:Hx.
  - right. split; [now left|].
    apply is_nan_spec in Hx. rewrite Hx. apply SFcompare_nan_l.
  - destruct (is_nan y) eqn:Hy.
    + right. split; [now right|].
      apply is_nan_spec in Hy. rewrite Hy. apply SFcompare_nan_r.
    + left. repeat split.
      apply SFcompare_lex; now apply not_nan_spec.
Qed.

Lemma leb_true (x y : float) :
  (x <=? y) = true <->
  is_nan x = false /\ is_nan y = false /\ lex3 (fkey x) (fkey y) <> Gt.
Proof.
  rewrite leb_spec. unfold SFleb.
  destruct (compare_cases x y) as [(Hx & Hy & ->) | ([Hn | Hn] & ->)].
  - destruct (lex3 (fkey x) (fkey y)); split; intros; repeat split;
      try assumption; try discriminate; intuition congruence.
  - split; [discriminate | intros (? & ? & ?); congruence].
  - split; [discriminate | intros (? & ? & ?); congruence].
Qed.

Lemma ltb_true (x y : float) :
  (x <? y) = true <->
  is_nan x = false /\ is_nan y = false /\ lex3 (fkey x) (fkey y) = Lt.
Proof.
  rewrite ltb_spec. unfold SFltb.
  destruct (compare_cases x y) as [(Hx & Hy & ->) | ([Hn | Hn] & ->)].
  - destruct (lex3 (fkey x) (fkey y)); split; intros; repeat split;
      try assumption; try discriminate; intuition congruence.
  - split; [discriminate | intros (? & ? & ?); congruence].
  - split; [discriminate | intros (? & ? & ?); congruence].
Qed.

Lemma eqb_true (x y : float) :
  (x =? y) = true <->
  is_nan x = false /\ is_nan y = false /\ lex3 (fkey x) (fkey y) = Eq.
Proof.
  rewrite eqb_spec. unfold SFeqb.
  destruct (compare_cases x y) as [(Hx & Hy & ->) | ([Hn | Hn] & ->)].
  - destruct (lex3 (fkey x) (fkey y)); split; intros; repeat split;
      try assumption; try discriminate; intuition congruence.
  - split; [discriminate | intros (? & ? & ?); congruence].
  - split; [discriminate | intros (? & ? & ?); congruence].
Qed.

Lemma lex3_cases (a b : Z * Z * Z) :
  match lex3 a b with
  | Lt => lexlt a b
  | Eq => a = b
  | Gt => lexlt b a
  end.
Proof.
  destruct a as [[a1 a2] a3], b as [[b1 b2] b3].
  unfold lex3, lexlt; cbn [fst snd].
  destruct (Z.compare_spec a1 b1); try lia;
    destruct (Z.compare_spec a2 b2); try lia;
    destruct (Z.compare_spec a3 b3); try lia.
  subst; reflexivity.
Qed.

Lemma lex3_refl (a : Z * Z * Z) : lex3 a a = Eq.
Proof.
  unfold lex3. now rewrite !Z.compare_refl.
Qed.

Lemma lex3_le_trans (a b c : Z * Z * Z) :
  lex3 a b <> Gt -> lex3 b c <> Gt -> lex3 a c <> Gt.
Proof.
  intros Hab Hbc Hac.
  pose proof (lex3_cases a b) as Cab.
  pose proof (lex3_cases b c) as Cbc.
  pose proof (lex3_cases a c) as Cac.
  rewrite Hac in Cac.
  destruct (lex3 a b); [| |congruence];
    destruct (lex3 b c); try congruence; subst;
    unfold lexlt in *; lia.
Qed.

Lemma lex3_gt_flip (a b : Z * Z * Z) : lex3 a b = Gt -> lex3 b a = Lt.
Proof.
  intros Hab.
  pose proof (lex3_cases a b) as Cab. rewrite Hab in Cab.
  pose proof (lex3_cases b a) as Cba.
  destruct (lex3 b a); [subst | reflexivity | ]; unfold lexlt in *; lia.
Qed.

Lemma leb_not_nan (x y : float) :
  (x <=? y) = true -> is_nan x = false /\ is_nan y = false.
Proof. intros H. apply leb_true in H. tauto. Qed.

Lemma leb_refl (x : float) : is_nan x = false -> (x <=? x) = true.
Proof.
  intros Hx. apply leb_true. repeat split; trivial.
  rewrite lex3_refl. discriminate.
Qed.

Lemma leb_trans (x y z : float) :
  (x <=? y) = true -> (y <=? z) = true -> (x <=? z) = true.
Proof.
  rewrite !leb_true. intros (Hx & Hy & Hxy) (_ & Hz & Hyz).
  repeat split; trivial. eapply lex3_le_trans; eassumption.
Qed.

Lemma leb_total (x y : float) :
  is_nan x = false -> is_nan y = false ->
  (x <=? y) = false -> (y <? x) = true.
Proof.
  intros Hx Hy Hxy. apply ltb_true. repeat split; trivial.
  apply lex3_gt_flip.
  destruct (lex3 (fkey x) (fkey y)) eqn:E; trivial;
    assert ((x <=? y) = true) by (apply leb_true; repeat split; trivial; congruence);
    congruence.
Qed.

Lemma ltb_leb (x y : float) : (x <? y) = true -> (x <=? y) = true.
Proof.
  rewrite ltb_true, leb_true. intros (Hx & Hy & E).
  repeat split; trivial. congruence.
Qed.

Lemma ltb_not_leb (x y : float) : (x <? y) = true -> (y <=? x) = false.
Proof.
  intros H. apply ltb_true in H. destruct H as (Hx & Hy & E).
  destruct (y <=? x) eqn:L; trivial.
  apply leb_true in L. destruct L as (_ & _ & L).
  pose proof (lex3_cases (fkey x) (fkey y)) as C. rewrite E in C.
  pose proof (lex3_cases (fkey y) (fkey x)) as C'.
  destruct (lex3 (fkey y) (fkey x)); [rewrite C' in C | | congruence];
    unfold lexlt in *; lia.
Qed.

Lemma eqb_leb (x y : float) : (x =? y) = true -> (x <=? y) = true.
Proof.
  rewrite eqb_true, leb_true. intros (Hx & Hy & E).
  repeat split; trivial. congruence.
Qed.

Lemma eqb_sym (x y : float) : (x =? y) = true -> (y =? x) = true.
Proof.
  rewrite !eqb_true. intros (Hx & Hy & E). repeat split; trivial.
  pose proof (lex3_cases (fkey x) (fkey y)) as C. rewrite E in C.
  rewrite C. apply lex3_refl.
Qed.

Lemma eqb_refl (x : float) : is_nan x = false -> (x =? x) = true.
Proof.
  intros Hx. apply eqb_true. repeat split; trivial. apply lex3_refl.
Qed.

Lemma leb_nan_r (x y : float) : is_nan y = true -> (x <=? y) = false.
Proof.
  intros Hy. destruct (x <=? y) eqn:E; trivial.
  apply leb_not_nan in E. destruct E; congruence.
Qed.

Lemma leb_nan_l (x y : float) : is_nan x = true -> (x <=? y) = false.
Proof.
  intros Hy. destruct (x <=? y) eqn:E; trivial.
  apply leb_not_nan in E. destruct E; congruence.
Qed.

Lemma eqb_nan_r (x y : float) : is_nan y = true -> (x =? y) = false.
Proof.
  intros Hy. destruct (x =? y) eqn:E; trivial.
  apply eqb_true in E. destruct E as (_ & ? & _); congruence.
Qed.

Lemma leb_antisym (x y : float) :
  (x <=? y) = true -> (y <=? x) = true -> (x =? y) = true.
Proof.
  rewrite !leb_true, eqb_true. intros (Hx & Hy & Hxy) (_ & _ & Hyx).
  repeat split; trivial.
  destruct (lex3 (fkey x) (fkey y)) eqn:E; [reflexivity | | congruence].
  pose proof (lex3_cases (fkey x) (fkey y)) as C. rewrite E in C.
  pose proof (lex3_cases (fkey y) (fkey x)) as C'.
  destruct (lex3 (fkey y) (fkey x)); [rewrite C' in C | | congruence];
    unfold lexlt in *; lia.
Qed.

End FloatOrder.

(** ** Generic facts on the list combinators *)

Lemma combine_map_same {A B C : Type} (f : A -> B) (g : A -> C) (l : list A) :
  combine (map f l) (map g l) = map (fun a => (f a, g a)) l.
Proof.
  induction l as [|a l IH]; cbn; [reflexivity | now rewrite IH].
Qed.

Lemma np_mask_map {A B : Type} (p : A -> bool) (f : A -> B) (l : list A) :
  np_mask (map p l) (map f l) = map f (filter p l).
Proof.
  induction l as [|a l IH]; cbn; [reflexivity|].
  destruct (p a); cbn; now rewrite IH.
Qed.

Lemma filter_none {A : Type} (p : A -> bool) (l : list A) :
  (forall a, In a l -> p a = false) -> filter p l = [].
Proof.
  induction l as [|a l IH]; cbn; intros H; [reflexivity|].
  rewrite (H a (or_introl eq_refl)). apply IH. intros b Hb. apply H. now right.
Qed.

(** A predicate that holds at one index only selects one element. *)
Lemma filter_unique {A : Type} (p : A -> bool) (l : list A) (j : nat) (t : A) :
  nth_error l j = Some t -> p t = true ->
  (forall k u, nth_error l k = Some u -> p u = true -> k = j) ->
  filter p l = [t].
Proof.
  revert j. induction l as [|a l IH]; intros j Hj Hp Huniq.
  - destruct j; discriminate.
  - destruct j as [|j]; cbn in Hj.
    + injection Hj as ->. cbn. rewrite Hp. f_equal.
      apply filter_none. intros b Hb.
      destruct (In_nth_error _ _ Hb) as [k Hk].
      destruct (p b) eqn:E; trivial.
      specialize (Huniq (S k) b Hk E). discriminate.
    + cbn. destruct (p a) eqn:E.
      * specialize (Huniq 0%nat a eq_refl E). discriminate.
      * apply (IH j Hj Hp). intros k u Hk Hu.
        specialize (Huniq (S k) u Hk Hu). now injection Huniq.
Qed.

(** A loop none of whose passes raises builds one result per element. *)
Lemma mapM_ok {A B : Type} (f : A -> result B) (l : list A) :
  (forall a, In a l -> exists b, f a = Ok b) ->
  exists bs, mapM f l = Ok bs /\ length bs = length l /\
    forall i a, nth_error l i = Some a ->
      exists b, nth_error bs i = Some b /\ f a = Ok b.
Proof.
  induction l as [|a l IH]; intros H.
  - exists []. repeat split. intros [|i] a Hi; discriminate.
  - destruct (H a (or_introl eq_refl)) as [b Hb].
    destruct IH as (bs & Hbs & Hlen & Hnth).
    { intros a' Ha'. apply H. now right. }
    exists (b :: bs). cbn. rewrite Hb. cbn. rewrite Hbs. cbn.
    repeat split; [now rewrite Hlen|].
    intros [|i] a' Hi; cbn in *.
    + injection Hi as <-. now exists b.
    + now apply Hnth.
Qed.

(** ** [np.min] *)

Lemma fmin_is_nan (a b : float) : is_nan (fmin a b) = is_nan a || is_nan b.
Proof.
  unfold fmin. destruct (is_nan a) eqn:Ha.
  - rewrite orb_true_r. now rewrite Ha.
  - rewrite orb_false_r. destruct (a <=? b) eqn:E.
    + apply FloatOrder.leb_not_nan in E. destruct E as [_ ->]. now rewrite Ha.
    + reflexivity.
Qed.

Lemma fold_fmin_is_nan (r : list float) (acc : float) :
  is_nan (fold_left fmin r acc) = is_nan acc || existsb is_nan r.
Proof.
  revert acc. induction r as [|x r IH]; intros acc; cbn.
  - now rewrite orb_false_r.
  - rewrite IH, fmin_is_nan. now rewrite orb_assoc.
Qed.

(** On values without NaN the reduction returns an element that is below
    every other one. *)
Lemma fold_fmin_least (r : list float) (acc : float) :
  is_nan acc = false -> existsb is_nan r = false ->
  In (fold_left fmin r acc) (acc :: r) /\
  forall x, In x (acc :: r) -> (fold_left fmin r acc <=? x) = true.
Proof.
  revert acc. induction r as [|y r IH]; intros acc Hacc Hr.
  - split; [now left|]. intros x [<- | []]. now apply FloatOrder.leb_refl.
  - cbn in Hr. apply orb_false_iff in Hr. destruct Hr as [Hy Hr].
    cbn [fold_left].
    destruct (acc <=? y) eqn:E.
    + assert (Hm : fmin acc y = acc) by (unfold fmin; now rewrite E).
      rewrite Hm. destruct (IH acc Hacc Hr) as [Hin Hle]. split.
      * destruct Hin as [Hin | Hin]; [now left | right; now right].
      * intros x [<- | [<- | Hx]].
        -- apply Hle. now left.
        -- apply FloatOrder.leb_trans with acc; [apply Hle; now left | exact E].
        -- apply Hle. now right.
    + assert (Hm : fmin acc y = y) by (unfold fmin; now rewrite E, Hacc).
      rewrite Hm. destruct (IH y Hy Hr) as [Hin Hle]. split.
      * now right.
      * intros x [<- | [<- | Hx]].
        -- apply FloatOrder.leb_trans with y; [apply Hle; now left|].
           apply FloatOrder.ltb_leb. now apply FloatOrder.leb_total.
        -- apply Hle. now left.
        -- apply Hle. now right.
Qed.

(** ** Star matcher *)

(** The loop body on a table, with the three arrays read as maps over the
    target table and the mask as a filter. *)
Lemma shift_of_some (s : source) (stars2 : list source) :
  shift_of (xcentroid s) (ycentroid s) (Some stars2) =
  (m <- np_min (map (dist s) stars2) ;;
   let sel := filter (fun t => dist s t =? m) stars2 in
   near <- truth (map (fun t => dist s t <? 20) sel) ;;
   if near then
     d0 <- item (map (dist s) sel) ;;
     d1 <- item (map (fun t => xcentroid s - xcentroid t) sel) ;;
     d2 <- item (map (fun t => ycentroid s - ycentroid t) sel) ;;
     Ok (d0, d1, d2)
   else Ok nan_row).
Proof.
  unfold shift_of, column. cbn [bind].
  rewrite !map_map, combine_map_same, map_map. cbn [fst snd].
  change (map (fun x : source => abs (sqrt
            ((xcentroid s - xcentroid x) * (xcentroid s - xcentroid x) +
             (ycentroid s - ycentroid x) * (ycentroid s - ycentroid x)))) stars2)
    with (map (dist s) stars2).
  destruct (np_min (map (dist s) stars2)) as [m|e]; [|reflexivity].
  cbn [bind]. rewrite !map_map, !np_mask_map, map_map. reflexivity.
Qed.

(** A NaN among the distances leaves the row unmatched, and then no
    target star is nearest. *)
Lemma shift_of_nan (s : source) (stars2 : list source) :
  existsb is_nan (map (dist s) stars2) = true ->
  shift_of (xcentroid s) (ycentroid s) (Some stars2) = Ok nan_row /\
  forall j t, ~ nearest s stars2 j t.
Proof.
  intros Hnan. split.
  - rewrite shift_of_some.
    destruct (map (dist s) stars2) as [|d ds] eqn:Eds; [discriminate|].
    cbn [np_min bind].
    assert (Hm : is_nan (fold_left fmin ds d) = true).
    { rewrite fold_fmin_is_nan. exact Hnan. }
    cbv zeta. rewrite filter_none; [reflexivity|].
    intros t _. now apply FloatOrder.eqb_nan_r.
  - intros j t [_ Hle].
    apply existsb_exists in Hnan. destruct Hnan as (d & Hd & Hdn).
    apply in_map_iff in Hd. destruct Hd as (u & <- & Hu).
    specialize (Hle u Hu). rewrite FloatOrder.leb_nan_r in Hle by assumption.
    discriminate.
Qed.

(** Without NaN and without a tie the row is that of the nearest star. *)
Lemma shift_of_nearest (s : source) (stars2 : list source) :
  stars2 <> [] ->
  existsb is_nan (map (dist s) stars2) = false ->
  (forall j k t u, nearest s stars2 j t -> nearest s stars2 k u -> j = k) ->
  exists j t, nearest s stars2 j t /\
    shift_of (xcentroid s) (ycentroid s) (Some stars2) =
    Ok (if dist s t <? 20 then matched_row s t else nan_row).
Proof.
  intros Hne Hnan Hties.
  destruct (map (dist s) stars2) as [|d ds] eqn:Eds.
  { destruct stars2; [congruence | discriminate]. }
  cbn in Hnan. apply orb_false_iff in Hnan. destruct Hnan as [Hd Hds].
  destruct (fold_fmin_least ds d Hd Hds) as [Hin Hle].
  set (m := fold_left fmin ds d) in *.
  rewrite <- Eds in Hin. apply in_map_iff in Hin.
  destruct Hin as (t & Ht & Hint).
  destruct (In_nth_error _ _ Hint) as [j Hj].
  assert (Hnear : nearest s stars2 j t).
  { split; [exact Hj|]. intros u Hu. rewrite Ht. apply Hle.
    rewrite <- Eds. now apply in_map. }
  assert (Hmnan : is_nan m = false).
  { destruct (FloatOrder.leb_not_nan _ _ (Hle d (or_introl eq_refl))) as [H _].
    exact H. }
  exists j, t. split; [exact Hnear|].
  rewrite shift_of_some, Eds. cbn [np_min bind]. fold m. cbv zeta.
  rewrite (filter_unique (fun t0 => dist s t0 =? m) stars2 j t Hj).
  - cbn [map truth bind item]. rewrite Ht.
    destruct (m <? 20); [|reflexivity].
    unfold matched_row. now rewrite Ht.
  - rewrite Ht. now apply FloatOrder.eqb_refl.
  - intros k u Hk Hu.
    apply (Hties k j u t); [|exact Hnear].
    split; [exact Hk|]. intros v Hv.
    apply FloatOrder.leb_trans with m; [now apply FloatOrder.eqb_leb|].
    apply Hle. rewrite <- Eds. now apply in_map.
Qed.

Lemma mapM_map {A B C : Type} (g : A -> B) (f : B -> result C) (l : list A) :
  mapM f (map g l) = mapM (fun a => f (g a)) l.
Proof.
  induction l as [|a l IH]; cbn; [reflexivity | now rewrite IH].
Qed.

Lemma calculate_shift_some (stars1 stars2 : list source) :
  calculate_shift (Some stars1) (Some stars2) =
  mapM (fun s => shift_of (xcentroid s) (ycentroid s) (Some stars2)) stars1.
Proof.
  unfold calculate_shift, column. cbn [bind].
  now rewrite combine_map_same, mapM_map.
Qed.

(** C6. For a target table that is not empty and without ties,
    [calculate_shift] returns one row per reference star, in reference
    order: row [i] is (distance, dx, dy) of the nearest target star, dx
    and dy being reference minus target, when that distance is strictly
    under 20, and the NaN row otherwise (also when a NaN distance leaves
    no nearest star).  The reference star (50, 50) against the target
    (53, 54) gives (5.0, -3, -4). *)
Theorem calculate_shift_rows (stars1 stars2 : list source) :
  stars2 <> [] ->
  no_ties stars1 stars2 ->
  (exists diff,
     calculate_shift (Some stars1) (Some stars2) = Ok diff /\
     length diff = length stars1 /\
     forall i s, nth_error stars1 i = Some s ->
       (forall j t, nearest s stars2 j t ->
          nth_error diff i =
          Some (if dist s t <? 20 then matched_row s t else nan_row)) /\
       ((forall j t, ~ nearest s stars2 j t) ->
          nth_error diff i = Some nan_row)) /\
  (forall i1 p1 i2 p2,
     calculate_shift (Some [mkSource i1 50 50 p1 100])
                     (Some [mkSource i2 53 54 p2 90]) = Ok [(5, -3, -4)]).
Proof.
  intros Hne Hties. split; [|reflexivity].
  rewrite calculate_shift_some.
  destruct (mapM_ok (fun s => shift_of (xcentroid s) (ycentroid s) (Some stars2)) stars1)
    as (diff & Hdiff & Hlen & Hnth).
  { intros s Hs.
    destruct (existsb is_nan (map (dist s) stars2)) eqn:Hnan.
    - exists nan_row. now apply shift_of_nan.
    - destruct (shift_of_nearest s stars2 Hne Hnan (Hties s Hs)) as (j & t & _ & H).
      eexists. exact H. }
  exists diff. repeat split; trivial.
  - intros j t Hnear.
    destruct (Hnth i s H) as (b & Hb & Hs). rewrite Hb. f_equal.
    assert (Hin : In s stars1) by (eapply nth_error_In; eassumption).
    destruct (existsb is_nan (map (dist s) stars2)) eqn:Hnan.
    + destruct (shift_of_nan s stars2 Hnan) as [_ Hno].
      destruct (Hno j t Hnear).
    + destruct (shift_of_nearest s stars2 Hne Hnan (Hties s Hin))
        as (j0 & t0 & Hnear0 & H0).
      assert (j = j0) by (eapply (Hties s Hin); eassumption). subst j0.
      destruct Hnear as [Hj _], Hnear0 as [Hj0 _].
      assert (t0 = t) by congruence. subst t0. congruence.
  - intros Hno.
    destruct (Hnth i s H) as (b & Hb & Hs). rewrite Hb. f_equal.
    assert (Hin : In s stars1) by (eapply nth_error_In; eassumption).
    destruct (existsb is_nan (map (dist s) stars2)) eqn:Hnan.
    + destruct (shift_of_nan s stars2 Hnan) as [H0 _]. congruence.
    + destruct (shift_of_nearest s stars2 Hne Hnan (Hties s Hin))
        as (j0 & t0 & Hnear0 & _).
      destruct (Hno j0 t0 Hnear0).
Qed.

(** The run of C6 on two reference stars and one target star: the first
    is matched, the second is farther than 20 px and stays unmatched. *)
Lemma calculate_shift_rows_witness :
  exists diff,
    calculate_shift (Some [mkSource 1 50 50 0 100; mkSource 2 200 200 0 80])
                    (Some [mkSource 1 53 54 0 90]) = Ok diff /\
    nth_error diff 0 = Some (5, -3, -4) /\
    nth_error diff 1 = Some nan_row.
Proof.
  destruct (calculate_shift_rows
              [mkSource 1 50 50 0 100; mkSource 2 200 200 0 80]
              [mkSource 1 53 54 0 90]) as [(diff & Hd & _ & Hrows) _].
  - discriminate.
  - intros s _ j k t u [Hj _] [Hk _].
    destruct j as [|[|j]], k as [|[|k]]; cbn in Hj, Hk; congruence.
  - exists diff. split; [exact Hd|]. split.
    + destruct (Hrows 0%nat _ eq_refl) as [H _].
      apply (H 0%nat (mkSource 1 53 54 0 90)).
      split; [reflexivity|]. intros u [<- | []]. reflexivity.
    + destruct (Hrows 1%nat _ eq_refl) as [H _].
      apply (H 0%nat (mkSource 1 53 54 0 90)).
      split; [reflexivity|]. intros u [<- | []]. reflexivity.
Defined.

(** Two selected elements at different indices: the mask keeps at least
    two. *)
Lemma filter_two {A : Type} (p : A -> bool) (l : list A) (j k : nat) (t u : A) :
  (j < k)%nat -> nth_error l j = Some t -> nth_error l k = Some u ->
  p t = true -> p u = true ->
  exists a b rest, filter p l = a :: b :: rest.
Proof.
  revert j k. induction l as [|x l IH]; intros j k Hlt Hj Hk Ht Hu.
  - destruct j; discriminate.
  - destruct k as [|k]; [lia|]. cbn in Hk.
    destruct j as [|j]; cbn in Hj.
    + injection Hj as ->. cbn. rewrite Ht.
      assert (Hin : In u (filter p l)).
      { apply filter_In. split; [eapply nth_error_In; eassumption | exact Hu]. }
      destruct (filter p l) as [|b rest]; [destruct Hin|].
      now exists t, b, rest.
    + destruct (IH j k ltac:(lia) Hj Hk Ht Hu) as (a & b & rest & E).
      cbn. rewrite E. destruct (p x).
      * now exists x, a, (b :: rest).
      * now exists a, b, rest.
Qed.

(** On a tie the mask selects two distances and the [if] on them raises. *)
Lemma shift_of_tie (s : source) (stars2 : list source) (j k : nat) (t u : source) :
  j <> k -> nearest s stars2 j t -> nearest s stars2 k u ->
  shift_of (xcentroid s) (ycentroid s) (Some stars2) = Raise ValueError.
Proof.
  intros Hjk [Hj Hjle] [Hk Hkle].
  rewrite shift_of_some.
  destruct (map (dist s) stars2) as [|d ds] eqn:Eds; [reflexivity|].
  cbn [np_min bind]. set (m := fold_left fmin ds d). cbv zeta.
  assert (Hnan : existsb is_nan (d :: ds) = false).
  { rewrite <- Eds. destruct (existsb is_nan (map (dist s) stars2)) eqn:E; trivial.
    apply existsb_exists in E. destruct E as (x & Hx & Hxn).
    apply in_map_iff in Hx. destruct Hx as (v & <- & Hv).
    specialize (Hjle v Hv). rewrite FloatOrder.leb_nan_r in Hjle by assumption.
    discriminate. }
  cbn in Hnan. apply orb_false_iff in Hnan. destruct Hnan as [Hd Hds].
  destruct (fold_fmin_least ds d Hd Hds) as [Hin Hle]. fold m in Hin, Hle.
  rewrite <- Eds in Hin, Hle. apply in_map_iff in Hin.
  destruct Hin as (v & Hv & Hvin).
  assert (Hsel : forall w, In w stars2 ->
            (forall x, In x stars2 -> (dist s w <=? dist s x) = true) ->
            (dist s w =? m) = true).
  { intros w Hw Hwle. apply FloatOrder.leb_antisym.
    - rewrite <- Hv. now apply Hwle.
    - apply Hle. now apply in_map. }
  assert (Ht : (dist s t =? m) = true)
    by (apply Hsel; [eapply nth_error_In; eassumption | exact Hjle]).
  assert (Hu : (dist s u =? m) = true)
    by (apply Hsel; [eapply nth_error_In; eassumption | exact Hkle]).
  assert (Htwo : exists a b rest,
            filter (fun t0 => dist s t0 =? m) stars2 = a :: b :: rest).
  { destruct (Nat.lt_total j k) as [Hlt | [Heq | Hgt]]; [| congruence |].
    - exact (filter_two (fun t0 => dist s t0 =? m) stars2 j k t u Hlt Hj Hk Ht Hu).
    - exact (filter_two (fun t0 => dist s t0 =? m) stars2 k j u t Hgt Hk Hj Hu Ht). }
  destruct Htwo as (a & b & rest & ->). reflexivity.
Qed.

(** On a table the loop body raises nothing but [ValueError]. *)
Lemma shift_of_raise (x1 y1 : float) (stars2 : list source) (e : exn) :
  shift_of x1 y1 (Some stars2) = Raise e -> e = ValueError.
Proof.
  unfold shift_of, column. cbn [bind].
  set (dx := map (fun x => x1 - x) (map xcentroid stars2)).
  set (dy := map (fun y => y1 - y) (map ycentroid stars2)).
  set (ds := map _ (combine dx dy)).
  destruct ds as [|d ds']; cbn [np_min bind]; [congruence|].
  set (msk := map _ (d :: ds')).
  destruct (np_mask msk (d :: ds')) as [|a [|b l]]; cbn [map truth bind item];
    try congruence.
  destruct (a <? 20); [|congruence].
  destruct (np_mask msk dx) as [|a1 [|b1 l1]]; cbn [bind item]; try congruence.
  destruct (np_mask msk dy) as [|a2 [|b2 l2]]; cbn [bind item]; congruence.
Qed.

Lemma mapM_raise {A B : Type} (f : A -> result B) (l : list A) (a : A) (e : exn) :
  In a l -> f a = Raise e ->
  (forall b e', In b l -> f b = Raise e' -> e' = e) ->
  mapM f l = Raise e.
Proof.
  induction l as [|x l IH]; intros Hin Ha Hall; [destruct Hin|].
  cbn. destruct (f x) as [b|e'] eqn:Ex.
  - destruct Hin as [-> | Hin]; [congruence|].
    cbn. rewrite IH; trivial. intros b' e'' Hb'. apply Hall. now right.
  - cbn. f_equal. apply (Hall x e'); [now left | exact Ex].
Qed.

(** C8. What [calculate_shift] does on a tie: as soon as one reference
    star has two nearest target stars (two rows of the target table at
    the same, minimum distance), the call raises [ValueError]: the mask
    [distances == np.min(distances)] selects both, and the [if] on a
    two-element array is ambiguous.  No row for a single target star is
    recorded. *)
Theorem calculate_shift_tie_raises
  (stars1 stars2 : list source) (s : source) (j k : nat) (t u : source) :
  In s stars1 -> j <> k ->
  nearest s stars2 j t -> nearest s stars2 k u ->
  calculate_shift (Some stars1) (Some stars2) = Raise ValueError.
Proof.
  intros Hs Hjk Hj Hk. rewrite calculate_shift_some.
  apply mapM_raise with (a := s); trivial.
  - eapply shift_of_tie; eassumption.
  - intros b e' _. apply shift_of_raise.
Qed.

(** The tie of C8 on one reference star (50, 50) and the target stars
    (53, 54) and (47, 46), both 5 px away. *)
Lemma calculate_shift_tie_witness :
  calculate_shift (Some [mkSource 1 50 50 0 100])
                  (Some [mkSource 1 53 54 0 90; mkSource 2 47 46 0 80])
  = Raise ValueError.
Proof.
  apply (calculate_shift_tie_raises
           [mkSource 1 50 50 0 100]
           [mkSource 1 53 54 0 90; mkSource 2 47 46 0 80]
           (mkSource 1 50 50 0 100) 0 1
           (mkSource 1 53 54 0 90) (mkSource 2 47 46 0 80)).
  - now left.
  - discriminate.
  - split; [reflexivity|]. intros v [<- | [<- | []]]; reflexivity.
  - split; [reflexivity|]. intros v [<- | [<- | []]]; reflexivity.
Defined.

(** ** Frame shifter *)

Lemma np_roll1_length {A : Type} (l : list A) (k : Z) :
  length (np_roll1 l k) = length l.
Proof.
  unfold np_roll1.
  destruct (Z.to_nat _ =? 0)%nat; [reflexivity|].
  rewrite length_app, length_skipn, length_firstn. lia.
Qed.

Lemma np_roll1_map {A B : Type} (f : A -> B) (l : list A) (k : Z) :
  map f (np_roll1 l k) = np_roll1 (map f l) k.
Proof.
  unfold np_roll1. rewrite length_map.
  destruct (Z.to_nat _ =? 0)%nat; [reflexivity|].
  now rewrite map_app, skipn_map, firstn_map.
Qed.

(** Rolling by [k] and then by [-k] gives the list back. *)
Lemma np_roll1_inverse {A : Type} (l : list A) (k : Z) :
  np_roll1 (np_roll1 l k) (- k) = l.
Proof.
  unfold np_roll1 at 1. rewrite np_roll1_length.
  unfold np_roll1.
  destruct l as [|a l']; [rewrite !Z.mod_1_r; reflexivity|].
  set (l := a :: l'). set (n := length l).
  assert (Hn : (0 < Z.of_nat n)%Z) by (subst n l; cbn [length]; lia).
  replace (n =? 0)%nat with false by (symmetry; apply Nat.eqb_neq; lia).
  pose proof (Z.mod_pos_bound k (Z.of_nat n) Hn) as Hk.
  destruct (Z.eq_dec (k mod Z.of_nat n) 0) as [Hz | Hnz].
  - rewrite Z.mod_opp_l_z by lia. rewrite Hz. reflexivity.
  - rewrite Z.mod_opp_l_nz by lia.
    set (o := Z.to_nat (k mod Z.of_nat n)).
    assert (Ho : (0 < o < n)%nat) by (subst o; lia).
    replace (Z.to_nat (Z.of_nat n - k mod Z.of_nat n)) with (n - o)%nat
      by (subst o; lia).
    replace (n - o =? 0)%nat with false by (symmetry; apply Nat.eqb_neq; lia).
    replace (o =? 0)%nat with false by (symmetry; apply Nat.eqb_neq; lia).
    replace (n - (n - o))%nat with o by lia.
    assert (Hlen : length (skipn (n - o) l) = o)
      by (rewrite length_skipn; subst n; lia).
    rewrite skipn_app, firstn_app, Hlen, Nat.sub_diag.
    rewrite <- Hlen at 1. rewrite skipn_all.
    replace (firstn o (skipn (n - o) l)) with (skipn (n - o) l)
      by (symmetry; apply firstn_all2; lia).
    cbn [skipn firstn app]. rewrite app_nil_r.
    apply firstn_skipn.
Qed.

(** C9. Rolling an image by (dy, dx) and then by (-dy, -dx) gives the
    image back, pixel for pixel, for every image and all integers dy and
    dx. *)
Theorem np_roll_inverse (im : image) (dy dx : Z) :
  np_roll (np_roll im dy dx) (- dy) (- dx) = im.
Proof.
  unfold np_roll.
  rewrite <- np_roll1_map, np_roll1_inverse, map_map.
  rewrite <- (map_id im) at 2. apply map_ext.
  intros row. apply np_roll1_inverse.
Qed.

Lemma np_median_nan (l : list float) :
  existsb is_nan l = true -> np_median l = nan.
Proof. intros H. unfold np_median. now rewrite H. Qed.

Lemma np_median_nil : np_median [] = nan.
Proof. reflexivity. Qed.

(** The routine the specification words does, on the whole array, what
    [roll_image] does on the valid records alone, where the median
    distance of the valid records is at least the threshold. *)
Lemma roll_image_valid_only_rolls (im : image) (diff : list shift_row)
                                  (threshold : float) :
  (threshold <=?
     np_median (map (fun r => fst (fst r))
                    (filter (fun r => negb (is_sentinel r)) diff))) = true ->
  roll_image_valid_only im diff threshold =
  roll_image im (filter (fun r => negb (is_sentinel r)) diff) threshold.
Proof.
  intros Hge. unfold roll_image_valid_only, roll_image. cbv zeta.
  rewrite Hge.
  destruct (_ <? threshold) eqn:Hlt; [|reflexivity].
  apply FloatOrder.ltb_not_leb in Hlt. congruence.
Qed.

(** C2. [roll_image] takes [np.median] of the whole distance column,
    the NaN sentinels of the unmatched stars included.  As soon as one
    record is a sentinel the median is NaN, the test [offset >= 0.5]
    fails and the image is returned as it is, whatever the valid records
    say: one unmatched star switches the alignment off.  The routine the
    specification words takes its medians over the valid records only:
    where their median distance is at least 0.5 it does what
    [roll_image] does when it is given the valid records alone. *)
Theorem roll_image_sentinel_disables_alignment (im : image) (diff : list shift_row) :
  existsb is_sentinel diff = true ->
  roll_image im diff 0.5 = Ok im /\
  ((0.5 <=?
      np_median (map (fun r => fst (fst r))
                     (filter (fun r => negb (is_sentinel r)) diff))) = true ->
   roll_image_valid_only im diff 0.5 =
   roll_image im (filter (fun r => negb (is_sentinel r)) diff) 0.5).
Proof.
  intros Hs. split; [|apply roll_image_valid_only_rolls].
  unfold roll_image. rewrite np_median_nan; [reflexivity|].
  unfold is_sentinel in Hs. clear -Hs.
  induction diff as [|r diff IH]; cbn in *; [discriminate|].
  destruct (is_nan (fst (fst r))); [reflexivity | now apply IH].
Qed.

(** The frame shifter there and back: a record (5, 1, 1) and then a
    record (5, -1, -1) return the 3 x 4 image. *)
Example roll_image_there_and_back :
  (im' <- roll_image image_3x4 [(5, 1, 1)] 0.5 ;; roll_image im' [(5, -1, -1)] 0.5)
  = Ok image_3x4.
Proof. reflexivity. Qed.

(** C2 on the 3 x 4 image.  For three reference stars of which one has
    no target star within 20 px the star matcher returns one sentinel
    and two records (5, -3, -4).  The valid records have a median
    distance of 5 and call for a roll by (-4, -3), which is what the
    routine the specification words returns; [roll_image] returns the
    image as it is. *)
Lemma roll_image_sentinel_disables_alignment_witness :
  calculate_shift
    (Some [mkSource 1 500 500 0 100; mkSource 2 50 50 0 100; mkSource 3 80 80 0 100])
    (Some [mkSource 1 53 54 0 90; mkSource 2 83 84 0 90])
    = Ok [nan_row; (5, -3, -4); (5, -3, -4)] /\
  roll_image image_3x4 [nan_row; (5, -3, -4); (5, -3, -4)] 0.5 = Ok image_3x4 /\
  roll_image_valid_only image_3x4 [nan_row; (5, -3, -4); (5, -3, -4)] 0.5 =
    Ok [[8; 5; 6; 7]; [12; 9; 10; 11]; [4; 1; 2; 3]].
Proof.
  destruct (roll_image_sentinel_disables_alignment
              image_3x4 [nan_row; (5, -3, -4); (5, -3, -4)] eq_refl) as [Hcode Hspec].
  split; [vm_compute; reflexivity|]. split; [exact Hcode|].
  rewrite Hspec; reflexivity.
Defined.

(** ** Registration orchestrator *)

Lemma last_bound_app {A : Type} (l : list A) (a : A) :
  last_bound (l ++ [a]) = Some a.
Proof.
  induction l as [|x l IH]; [reflexivity|].
  cbn [app last_bound]. rewrite IH.
  destruct (l ++ [a]) eqn:E; [destruct l; discriminate | reflexivity].
Qed.

(** C1. What [image_combiner] does: the [if s is None] test reads the
    loop variable [s], which holds the detection of the last frame, not
    that of frame 0.  (1) When the last frame has no detection the call
    returns [None], whatever frame 0 holds.  (2) When frame 0 has no
    detection and the last frame has one, the call does not return
    [None]: it goes on to [calculate_shift], which subscripts the [None]
    of frame 0 and raises [TypeError]. *)
Theorem image_combiner_tests_last_frame
  (find_stars : image -> float -> float -> detection)
  (median_combiner : list image -> result image)
  (frames : list image) (last : image) (im_sig : float) :
  (find_stars last im_sig 100000 = None ->
   image_combiner find_stars median_combiner (frames ++ [last]) im_sig = Ok None) /\
  (forall first t,
     find_stars first im_sig 100000 = None ->
     find_stars last im_sig 100000 = Some t ->
     image_combiner find_stars median_combiner (first :: frames ++ [last]) im_sig
     = Raise TypeError).
Proof.
  split.
  - intros Hlast. unfold image_combiner.
    rewrite map_app. cbn [map]. rewrite last_bound_app, Hlast. reflexivity.
  - intros first t Hfirst Hlast. unfold image_combiner.
    change (first :: frames ++ [last]) with ((first :: frames) ++ [last]).
    rewrite map_app. cbn [map]. rewrite last_bound_app, Hlast.
    cbn [app nth mapM]. rewrite Hfirst. reflexivity.
Qed.

(** C1 on two frames, with the stand-in detector: a detection on frame 0
    and none on frame 1 gives [None]; none on frame 0 and one on frame 1
    raises [TypeError]. *)
Lemma image_combiner_tests_last_frame_witness :
  image_combiner one_star_detector first_frame_combiner [image_3x4; dark_3x4] 3
    = Ok None /\
  image_combiner one_star_detector first_frame_combiner [dark_3x4; image_3x4] 3
    = Raise TypeError.
Proof.
  split.
  - apply (proj1 (image_combiner_tests_last_frame
                    one_star_detector first_frame_combiner [image_3x4] dark_3x4 3)).
    reflexivity.
  - apply (proj2 (image_combiner_tests_last_frame
                    one_star_detector first_frame_combiner [] image_3x4 3)
             dark_3x4 [mkSource 1 50 50 12 100]); reflexivity.
Defined.

(** ** FWHM estimator *)

(** *** [np.max] and [np.where] *)

Lemma fmax_is_nan (a b : float) : is_nan (fmax a b) = is_nan a || is_nan b.
Proof.
  unfold fmax. destruct (is_nan a) eqn:Ha.
  - rewrite orb_true_r. now rewrite Ha.
  - rewrite orb_false_r. destruct (b <=? a) eqn:E.
    + apply FloatOrder.leb_not_nan in E. destruct E as [-> _]. now rewrite Ha.
    + reflexivity.
Qed.

Lemma fold_fmax_is_nan (r : list float) (acc : float) :
  is_nan (fold_left fmax r acc) = is_nan acc || existsb is_nan r.
Proof.
  revert acc. induction r as [|x r IH]; intros acc; cbn.
  - now rewrite orb_false_r.
  - rewrite IH, fmax_is_nan. now rewrite orb_assoc.
Qed.

Lemma fold_fmax_In (r : list float) (acc : float) :
  In (fold_left fmax r acc) (acc :: r).
Proof.
  revert acc. induction r as [|x r IH]; intros acc; [now left|].
  cbn [fold_left]. destruct (IH (fmax acc x)) as [H | H].
  - rewrite <- H. unfold fmax.
    destruct ((x <=? acc) || is_nan acc); [now left | right; now left].
  - right. now right.
Qed.

Lemma np_max_not_nan (l : list float) (m : float) :
  np_max l = Ok m -> is_nan m = false -> existsb is_nan l = false.
Proof.
  destruct l as [|x r]; [discriminate|]. cbn [np_max].
  intros [= <-] H. rewrite fold_fmax_is_nan in H. exact H.
Qed.

Lemma np_max_of_not_nan (l : list float) :
  l <> [] -> existsb is_nan l = false ->
  exists m, np_max l = Ok m /\ is_nan m = false.
Proof.
  destruct l as [|x r]; [congruence|]. intros _ H.
  eexists. split; [reflexivity|]. now rewrite fold_fmax_is_nan.
Qed.

Lemma np_max_In (l : list float) (m : float) : np_max l = Ok m -> In m l.
Proof.
  destruct l as [|x r]; [discriminate|]. intros [= <-]. apply fold_fmax_In.
Qed.

Lemma find_col_found (v : float) (row : list float) (c : nat) :
  In v row -> (v =? v) = true -> exists c', find_col v row c = Some c'.
Proof.
  intros Hin Hv. revert c. induction row as [|x row IH]; intros c; [destruct Hin|].
  cbn. destruct (x =? v) eqn:E; [now eexists|].
  destruct Hin as [-> | Hin]; [congruence | now apply IH].
Qed.

(** The maximum of an array, when it is not NaN, is found in it. *)
Lemma where_first_found (a : image) (m : float) :
  In m (concat a) -> is_nan m = false -> exists rc, where_first a m = Some rc.
Proof.
  intros Hin Hm. apply FloatOrder.eqb_refl in Hm.
  unfold where_first. generalize 0%nat as r.
  induction a as [|row a IH]; intros r; [destruct Hin|].
  cbn [concat] in Hin. apply in_app_or in Hin. cbn [where_first_from].
  destruct (find_col m row 0) as [c|] eqn:E; [now eexists|].
  destruct Hin as [Hin | Hin]; [|now apply IH].
  destruct (find_col_found m row 0 Hin Hm) as [c' Hc']. congruence.
Qed.

(** *** Writing zeros into a slice *)

Lemma Forall2_same {A : Type} (R : A -> A -> Prop) (l : list A) :
  (forall a, R a a) -> Forall2 R l l.
Proof. intros H. induction l; constructor; auto. Qed.

Lemma Forall2_firstn {A B : Type} (R : A -> B -> Prop) (n : nat) (l : list A) (l' : list B) :
  Forall2 R l l' -> Forall2 R (firstn n l) (firstn n l').
Proof.
  intros H. revert n. induction H; intros [|n]; cbn; constructor; auto.
Qed.

Lemma Forall2_skipn {A B : Type} (R : A -> B -> Prop) (n : nat) (l : list A) (l' : list B) :
  Forall2 R l l' -> Forall2 R (skipn n l) (skipn n l').
Proof.
  intros H. revert n. induction H; intros [|n]; cbn; try constructor; auto.
Qed.

Lemma Forall2_map {A B : Type} (R : A -> A -> Prop) (Q : B -> B -> Prop)
      (f : A -> B) (l l' : list A) :
  (forall a a', R a a' -> Q (f a) (f a')) ->
  Forall2 R l l' -> Forall2 Q (map f l) (map f l').
Proof. intros Hf H. induction H; cbn; constructor; auto. Qed.

Lemma Forall2_concat {A : Type} (R : A -> A -> Prop) (a a' : list (list A)) :
  Forall2 (Forall2 R) a a' -> Forall2 R (concat a) (concat a').
Proof.
  intros H. induction H; cbn; [constructor | now apply Forall2_app].
Qed.

Lemma py_slice_Forall2 {A : Type} (R : A -> A -> Prop) (l l' : list A) (a b : Z) :
  Forall2 R l l' -> Forall2 R (py_slice l a b) (py_slice l' a b).
Proof.
  intros H. unfold py_slice. rewrite (Forall2_length H).
  now apply Forall2_firstn, Forall2_skipn.
Qed.

Lemma mapi_Forall2 {A : Type} (R : A -> A -> Prop) (g : nat -> A -> A) (l : list A) :
  (forall k a, R (g k a) a) -> Forall2 R (mapi g l) l.
Proof.
  intros Hg. unfold mapi, enumerate. generalize 0%nat as k.
  induction l as [|a l IH]; intros k; cbn; constructor; auto.
Qed.

Lemma fill_slice_Forall2 {A : Type} (R : A -> A -> Prop) (f : A -> A)
      (l : list A) (a b : Z) :
  (forall x, R x x) -> (forall x, R (f x) x) ->
  Forall2 R (fill_slice f l a b) l.
Proof.
  intros Hrefl Hf. unfold fill_slice. apply mapi_Forall2.
  intros k x. destruct (_ && _); auto.
Qed.

(** Zeroing a cutout leaves every pixel as it was or zero. *)
Lemma zero_slice2_faded (im : image) (r0 r1 c0 c1 : Z) :
  Forall2 (Forall2 faded) (zero_slice2 im r0 r1 c0 c1) im.
Proof.
  unfold zero_slice2. apply fill_slice_Forall2.
  - intros row. apply Forall2_same. now left.
  - intros row. apply fill_slice_Forall2; intros x; [now left | now right].
Qed.

Lemma slice2_Forall2 (R : float -> float -> Prop) (im im' : image) (r0 r1 c0 c1 : Z) :
  Forall2 (Forall2 R) im im' ->
  Forall2 (Forall2 R) (slice2 im r0 r1 c0 c1) (slice2 im' r0 r1 c0 c1).
Proof.
  intros H. unfold slice2.
  apply Forall2_map with (R := Forall2 R).
  - intros row row'. apply py_slice_Forall2.
  - now apply py_slice_Forall2.
Qed.

Lemma faded_not_nan (l' l : list float) :
  Forall2 faded l' l -> existsb is_nan l = false -> existsb is_nan l' = false.
Proof.
  intros H. induction H as [|x' x l' l Hx H IH]; [reflexivity|].
  cbn. intros Hn. apply orb_false_iff in Hn. destruct Hn as [Hx0 Hl].
  rewrite (IH Hl), orb_false_r. destruct Hx as [-> | ->]; [exact Hx0 | reflexivity].
Qed.

(** After a cutout is zeroed the interior still has a maximum, and it is
    not NaN when the previous one was not. *)
Lemma rescan_max (im : image) (r0 r1 c0 c1 : Z) (m : float) :
  np_max2 (interior im) = Ok m -> is_nan m = false ->
  exists m', np_max2 (interior (zero_slice2 im r0 r1 c0 c1)) = Ok m' /\
             is_nan m' = false.
Proof.
  intros Hm Hnan. unfold np_max2 in *.
  assert (HF : Forall2 faded (concat (interior (zero_slice2 im r0 r1 c0 c1)))
                             (concat (interior im))).
  { apply Forall2_concat. unfold interior. apply slice2_Forall2.
    apply zero_slice2_faded. }
  apply np_max_of_not_nan.
  - intros E. rewrite E in HF.
    destruct (concat (interior im)); [discriminate Hm | inversion HF].
  - apply (faded_not_nan _ _ HF). eapply np_max_not_nan; eassumption.
Qed.

(** *** The loop *)

Lemma not_ltb_leb (x y : float) :
  is_nan x = false -> is_nan y = false -> (x <? y) = false -> (y <=? x) = true.
Proof.
  intros Hx Hy H. destruct (y <=? x) eqn:E; trivial.
  pose proof (FloatOrder.leb_total y x Hy Hx E). congruence.
Qed.

(** The end of a rejecting pass: the way out by the counter or by the
    noise floor, or a next state that satisfies the invariant. *)
Lemma rescan_spec (im : image) (size r c count : Z)
      (fwhm im_sig : option float) (fits : nat) (m : float) :
  np_max2 (interior im) = Ok m -> is_nan m = false ->
  (1 <= count <= 101)%Z -> (Z.of_nat fits <= count)%Z ->
  match rescan im size r c count fwhm im_sig fits with
  | inl st' => loop_inv st' /\ ls_count st' = count /\ ls_fits st' = fits
  | inr out => exit_spec out /\ out_count out = count /\ out_fits out = fits
  end.
Proof.
  intros Hm Hnan Hc Hf. unfold rescan.
  destruct (rescan_max im (r - size) (r + size) (c - size) (c + size) m Hm Hnan)
    as (m' & Hm' & Hnan').
  rewrite Hm'. destruct (100 <? count)%Z eqn:E100.
  - apply Z.ltb_lt in E100. unfold exit_spec; cbn. repeat split; lia.
  - apply Z.ltb_ge in E100. destruct (m' <? 1000) eqn:Enoise.
    + unfold exit_spec; cbn. repeat split; try lia. now exists m'.
    + unfold loop_inv; cbn. repeat split; try lia; trivial.
      intros _. now apply not_ltb_leb.
Qed.

Section LoopFacts.

Variable curve_fit : image -> Z -> float -> option popt.
Variables (size : Z) (median_val : float).

(** One pass from a state that satisfies the invariant: it either
    leaves the loop as [exit_spec] says, or reaches a state that
    satisfies the invariant with the counter one higher. *)
Lemma loop_pass_spec (st : loop_state) :
  loop_inv st ->
  match loop_pass curve_fit size median_val st with
  | inl st' =>
      loop_inv st' /\ ls_count st' = (ls_count st + 1)%Z /\
      (ls_fits st <= ls_fits st' <= S (ls_fits st))%nat
  | inr out =>
      exit_spec out /\
      (out_count out = ls_count st \/ out_count out = (ls_count st + 1)%Z) /\
      (Z.of_nat (out_fits out) <= out_count out)%Z
  end.
Proof.
  intros (Hmax & Hcount & Hfits & Hzero & Hfloor). unfold loop_pass.
  assert (Hres : forall fw sg fits,
            is_nan (ls_max_peak st) = false ->
            (Z.of_nat fits <= ls_count st + 1)%Z ->
            (ls_fits st <= fits <= S (ls_fits st))%nat ->
            forall r c,
            match rescan (ls_image st) size r c (ls_count st + 1) fw sg fits with
            | inl st' =>
                loop_inv st' /\ ls_count st' = (ls_count st + 1)%Z /\
                (ls_fits st <= ls_fits st' <= S (ls_fits st))%nat
            | inr out =>
                exit_spec out /\
                (out_count out = ls_count st \/
                 out_count out = (ls_count st + 1)%Z) /\
                (Z.of_nat (out_fits out) <= out_count out)%Z
            end).
  { intros fw sg fits Hnan Hf Hf' r c.
    pose proof (rescan_spec (ls_image st) size r c (ls_count st + 1)
                  fw sg fits (ls_max_peak st) Hmax Hnan) as H.
    destruct (rescan _ _ _ _ _ _ _ _) as [st' | out].
    - destruct H as (Hi & Hc & Hfs); try lia. rewrite Hc, Hfs.
      split; [exact Hi | split; [reflexivity | lia]].
    - destruct H as (He & Hc & Hfs); try lia. rewrite Hc, Hfs.
      split; [exact He | split; [now right | lia]]. }
  destruct (0 <=? ls_max_peak st) eqn:Eguard; cbn [negb].
  - destruct (FloatOrder.leb_not_nan _ _ Eguard) as [_ Hnan].
    destruct (where_first_found (interior (ls_image st)) (ls_max_peak st))
      as [[rs cs] Hrc]; trivial.
    { apply np_max_In. exact Hmax. }
    rewrite Hrc.
    destruct (ls_max_peak st <? 50000).
    + destruct (curve_fit _ size median_val) as [p|].
      * destruct (2 <? _) eqn:Efit.
        -- unfold exit_spec; cbn. repeat split; try lia.
           eexists _, _. split; [reflexivity | exact Efit].
        -- apply Hres; trivial; lia.
      * change (2 <? 0) with false. cbv iota.
        apply Hres; trivial; lia.
    + apply Hres; trivial; lia.
  - assert (Hc0 : ls_count st = 0%Z).
    { destruct (Z.eq_dec (ls_count st) 0) as [E | E]; trivial.
      assert (H1000 : (1000 <=? ls_max_peak st) = true) by (apply Hfloor; lia).
      assert (H0 : (0 <=? ls_max_peak st) = true).
      { apply FloatOrder.leb_trans with 1000; [reflexivity | exact H1000]. }
      congruence. }
    destruct (Hzero Hc0) as [-> ->].
    unfold exit_spec; cbn. repeat split; trivial; lia.
Qed.

(** From a state that satisfies the invariant, with the counter at
    [c], [101 - c] passes are enough to leave the loop. *)
Lemma loop_leaves (fuel : nat) (st : loop_state) :
  loop_inv st -> (101 <= Z.of_nat fuel + ls_count st)%Z ->
  exists out, loop curve_fit fuel size median_val st = Some out /\
              exit_spec out /\
              (Z.of_nat (out_fits out) <= out_count out)%Z.
Proof.
  revert st. induction fuel as [|fuel IH]; intros st Hinv Hfuel.
  - destruct Hinv as (_ & Hc & _). lia.
  - cbn [loop]. pose proof (loop_pass_spec st Hinv) as H.
    destruct (loop_pass curve_fit size median_val st) as [st' | out].
    + destruct H as (Hinv' & Hc & _). apply IH; trivial. lia.
    + exists out. split; [reflexivity | tauto].
Qed.

End LoopFacts.

Lemma np_max_raise (l : list float) (e : exn) : np_max l = Raise e -> e = ValueError.
Proof. destruct l; cbn; congruence. Qed.

Lemma loop_more_fuel (curve_fit : image -> Z -> float -> option popt)
      (size : Z) (median_val : float) (fuel fuel' : nat) (st : loop_state)
      (out : outcome) :
  loop curve_fit fuel size median_val st = Some out -> (fuel <= fuel')%nat ->
  loop curve_fit fuel' size median_val st = Some out.
Proof.
  revert fuel' st. induction fuel as [|fuel IH]; intros fuel' st H Hle; [discriminate|].
  destruct fuel' as [|fuel']; [lia|]. cbn [loop] in *.
  destruct (loop_pass curve_fit size median_val st); [|exact H].
  apply IH; [exact H | lia].
Qed.

(** Every call ends within 101 passes, in one of the ways [exit_spec]
    lists. *)
Lemma find_fwhm_run
      (sigma_clipped_median : image -> float)
      (curve_fit : image -> Z -> float -> option popt)
      (im : image) (size : Z) :
  exists out,
    find_fwhm sigma_clipped_median curve_fit im size = Some out /\
    exit_spec out /\
    (Z.of_nat (out_fits out) <= out_count out)%Z.
Proof.
  unfold find_fwhm, find_fwhm_fuel.
  destruct (np_max2 (interior im)) as [m|e] eqn:Em.
  - apply loop_leaves; [|cbn; lia].
    unfold loop_inv; cbn. repeat split; trivial; lia.
  - eexists. split; [reflexivity|]. unfold exit_spec; cbn.
    repeat split; try lia. f_equal. eapply np_max_raise. exact Em.
Qed.

(** The counter goes up on every pass that stays in the loop, whichever
    branch it took. *)
Lemma loop_pass_count (curve_fit : image -> Z -> float -> option popt)
      (size : Z) (median_val : float) (st st' : loop_state) :
  loop_pass curve_fit size median_val st = inl st' ->
  ls_count st' = (ls_count st + 1)%Z.
Proof.
  assert (Hres : forall r c fw sg fits,
            rescan (ls_image st) size r c (ls_count st + 1) fw sg fits = inl st' ->
            ls_count st' = (ls_count st + 1)%Z).
  { intros r c fw sg fits. unfold rescan.
    destruct (np_max2 _); [|discriminate].
    destruct (100 <? _)%Z; [discriminate|].
    destruct (_ <? 1000); [discriminate|].
    intros E. inversion E. reflexivity. }
  unfold loop_pass.
  destruct (negb _); [discriminate|].
  destruct (where_first _ _) as [[rs cs]|]; [|discriminate].
  destruct (_ <? 50000).
  - destruct (curve_fit _ _ _) as [p|].
    + destruct (2 <? _); [discriminate | apply Hres].
    + change (2 <? 0) with false. cbv iota. apply Hres.
  - apply Hres.
Qed.

(** C10 as amended. For every image [find_fwhm] terminates: 101 passes
    of the loop always suffice (more fuel changes nothing), the counter
    goes up by one on every pass, saturated or not, and the call ends as
    [exit_spec] says: after at least one pass, through the counter check
    (counter 101), the noise-floor check or a successful fit; or before
    the first pass, when the interior is empty ([np.max] raises) or its
    maximum is negative or NaN (the loop guard fails and the [return]
    finds [fwhm] unbound). *)
Theorem find_fwhm_terminates
      (sigma_clipped_median : image -> float)
      (curve_fit : image -> Z -> float -> option popt)
      (im : image) (size : Z) :
  (exists out,
     find_fwhm sigma_clipped_median curve_fit im size = Some out /\
     (forall fuel, (101 <= fuel)%nat ->
        find_fwhm_fuel sigma_clipped_median curve_fit fuel im size = Some out) /\
     (0 <= out_count out <= 101)%Z /\
     exit_spec out) /\
  (forall median_val st st',
     loop_pass curve_fit size median_val st = inl st' ->
     ls_count st' = (ls_count st + 1)%Z).
Proof.
  split; [|intros median_val st st'; apply loop_pass_count].
  destruct (find_fwhm_run sigma_clipped_median curve_fit im size)
    as (out & Hrun & Hexit & _).
  exists out. split; [exact Hrun|]. split; [|split; [|exact Hexit]].
  - intros fuel Hfuel. unfold find_fwhm, find_fwhm_fuel in *.
    destruct (np_max2 (interior im)); [|exact Hrun].
    eapply loop_more_fuel; eassumption.
  - unfold exit_spec in Hexit. destruct (out_exit out); intuition lia.
Qed.

(** C10 as amended, on the image with 101 saturated pixels: the run ends
    within the bound, and its first pass, a saturated one, leaves the
    counter at 1. *)
Lemma find_fwhm_terminates_witness :
  (exists out,
     find_fwhm zero_median fit_sigma_3 saturated_row 1 = Some out /\
     (0 <= out_count out <= 101)%Z /\ exit_spec out) /\
  (exists st',
     loop_pass fit_sigma_3 1 0 (mkLoop saturated_row 60000 0 None None 0) = inl st' /\
     ls_count st' = 1%Z).
Proof.
  pose proof (find_fwhm_terminates zero_median fit_sigma_3 saturated_row 1) as [H1 H2].
  split.
  - destruct H1 as (out & Hrun & _ & Hc & He). exists out.
    split; [exact Hrun | split; [exact Hc | exact He]].
  - set (st0 := mkLoop saturated_row 60000 0 None None 0).
    set (st1 := match loop_pass fit_sigma_3 1 0 st0 with inl s => s | inr _ => st0 end).
    assert (E : loop_pass fit_sigma_3 1 0 st0 = inl st1) by (vm_compute; reflexivity).
    exists st1. split; [exact E|]. exact (H2 0 st0 st1 E).
Defined.

(** C10 as worded fails on two images.  On a 201 x 201 image of -1 the
    loop is left through its guard before any pass, by none of the three
    ways the claim lists, and the call returns nothing: it raises
    [UnboundLocalError].  On a 3 x 4 image the interior is empty and the
    call raises [ValueError] before the loop. *)
Lemma find_fwhm_total_counterexample :
  run_summary (find_fwhm zero_median fit_sigma_3 negative_201 100)
    = Some (Raise UnboundLocalError, 0%Z, 0%nat, ExitGuard) /\
  run_summary (find_fwhm zero_median fit_sigma_3 image_3x4 100)
    = Some (Raise ValueError, 0%Z, 0%nat, ExitRaise).
Proof.
  repeat apply conj; vm_compute; reflexivity.
Qed.

(** C4. What [find_fwhm] does to its argument: on the 201 x 201 image
    whose only bright pixel, 60000 at (100, 100), is saturated, the call
    returns (0, 0) and the pixel (100, 100) of the caller's array reads 0
    afterwards: the cutout was zeroed in the array itself, not in a
    copy. *)
Theorem find_fwhm_writes_to_argument
      (sigma_clipped_median : image -> float)
      (curve_fit : image -> Z -> float -> option popt) :
  nth 100 (nth 100 saturated_201 []) nan = 60000 /\
  option_map (fun o => (out_value o, nth 100 (nth 100 (out_image o) []) nan))
             (find_fwhm sigma_clipped_median curve_fit saturated_201 100)
    = Some (Ok (0, 0), 0).
Proof.
  repeat apply conj; vm_compute; reflexivity.
Qed.






(** ** Star selector *)

Lemma filter_map_swap {A B : Type} (q : B -> bool) (f : A -> B) (l : list A) :
  filter q (map f l) = map f (filter (fun a => q (f a)) l).
Proof.
  induction l as [|a l IH]; cbn; [reflexivity|].
  destruct (q (f a)); cbn; now rewrite IH.
Qed.

Lemma enumerate_from_In {A : Type} (l : list A) (b k : nat) (a : A) :
  In (k, a) (enumerate_from b l) <-> (b <= k)%nat /\ nth_error l (k - b) = Some a.
Proof.
  revert b. induction l as [|x l IH]; intros b; cbn.
  - split; [intros [] | intros [_ H]]. destruct (k - b)%nat; discriminate.
  - rewrite IH. split.
    + intros [[= <- <-] | [Hle H]].
      * split; [lia|]. now rewrite Nat.sub_diag.
      * split; [lia|]. replace (k - b)%nat with (S (k - S b)) by lia. exact H.
    + intros [Hle H]. destruct (k - b)%nat as [|d] eqn:E.
      * left. cbn in H. injection H as <-. f_equal. lia.
      * right. split; [lia|]. cbn in H. replace (k - S b)%nat with d by lia. exact H.
Qed.

(** A filter on the indexed rows that only looks at the row is a filter
    on the rows. *)
Lemma filter_enumerate {A : Type} (q : nat * A -> bool) (p : A -> bool)
      (l : list A) (b : nat) :
  (forall k a, nth_error l k = Some a -> q ((b + k)%nat, a) = p a) ->
  map snd (filter q (enumerate_from b l)) = filter p l.
Proof.
  revert b. induction l as [|x l IH]; intros b H; [reflexivity|].
  cbn. pose proof (H 0%nat x eq_refl) as H0. rewrite Nat.add_0_r in H0.
  rewrite H0. rewrite <- (IH (S b)).
  - destruct (p x); reflexivity.
  - intros k a Hk. rewrite <- (H (S k) a Hk). f_equal. f_equal. lia.
Qed.

(** A filter on the index alone, by a range, is a slice. *)
Lemma range_enumerate {A : Type} (l : list A) (a c b : nat) :
  map snd (filter (fun p => (a <=? fst p)%nat && (fst p <? c)%nat)
                  (enumerate_from b l))
  = firstn (c - Nat.max a b) (skipn (a - b) l).
Proof.
  revert b. induction l as [|x l IH]; intros b.
  - cbn. now rewrite skipn_nil, firstn_nil.
  - cbn [enumerate_from filter fst].
    destruct (a <=? b)%nat eqn:Ea; [apply Nat.leb_le in Ea | apply Nat.leb_gt in Ea].
    + replace (a - b)%nat with 0%nat by lia. cbn [skipn andb].
      destruct (b <? c)%nat eqn:Ec; [apply Nat.ltb_lt in Ec | apply Nat.ltb_ge in Ec].
      * cbn [map snd]. rewrite IH.
        replace (a - S b)%nat with 0%nat by lia.
        replace (c - Nat.max a b)%nat with (S (c - Nat.max a (S b))) by lia.
        reflexivity.
      * rewrite IH.
        replace (c - Nat.max a b)%nat with 0%nat by lia.
        replace (c - Nat.max a (S b))%nat with 0%nat by lia. reflexivity.
    + cbn [andb]. rewrite IH. replace (a - b)%nat with (S (a - S b)) by lia.
      replace (Nat.max a (S b)) with (Nat.max a b) by lia. reflexivity.
Qed.

Lemma existsb_eqb_In (k : nat) (ks : list nat) :
  existsb (Nat.eqb k) ks = true <-> In k ks.
Proof.
  rewrite existsb_exists. split.
  - intros (x & Hx & E). apply Nat.eqb_eq in E. now subst.
  - intros H. exists k. split; [exact H | apply Nat.eqb_refl].
Qed.

Lemma mapM_row_index (n : nat) (idx : list Z) :
  (forall z, In z idx -> (0 <= z < Z.of_nat n)%Z) ->
  mapM (row_index n) idx = Ok (map Z.to_nat idx).
Proof.
  induction idx as [|z idx IH]; intros H; [reflexivity|].
  cbn. unfold row_index at 1.
  pose proof (H z (or_introl eq_refl)) as Hz.
  replace ((0 <=? z)%Z && (z <? Z.of_nat n)%Z) with true
    by (symmetry; apply andb_true_iff; split; [apply Z.leb_le | apply Z.ltb_lt]; lia).
  cbn. rewrite IH; [reflexivity|]. intros z' Hz'. apply H. now right.
Qed.

(** Removing the rows whose indices are listed is a filter, when the
    list holds the indices of the rows a predicate selects. *)
Lemma remove_rows_filter {A : Type} (p : A -> bool) (idx : list Z) (tbl : list A) :
  (forall z, In z idx -> (0 <= z < Z.of_nat (length tbl))%Z) ->
  (forall k a, nth_error tbl k = Some a -> In (Z.of_nat k) idx <-> p a = true) ->
  remove_rows idx tbl = Ok (filter (fun a => negb (p a)) tbl).
Proof.
  intros Hrange Hp. unfold remove_rows.
  rewrite (mapM_row_index _ _ Hrange). cbn [bind]. f_equal.
  unfold enumerate. apply filter_enumerate.
  intros k a Hk. cbn [fst snd Nat.add]. f_equal.
  apply eq_true_iff_eq. rewrite existsb_eqb_In, <- (Hp k a Hk), in_map_iff. split.
  - intros (z & Hz & Hin). pose proof (Hrange z Hin).
    replace (Z.of_nat k) with z by lia. exact Hin.
  - intros Hin. exists (Z.of_nat k). split; [lia | exact Hin].
Qed.

Lemma enumerate_In {A : Type} (l : list A) (k : nat) (a : A) :
  In (k, a) (enumerate l) <-> nth_error l k = Some a.
Proof.
  unfold enumerate. rewrite enumerate_from_In, Nat.sub_0_r.
  split; [tauto | intros H; split; [lia | exact H]].
Qed.

Lemma nth_error_lt {A : Type} (l : list A) (k : nat) (a : A) :
  nth_error l k = Some a -> (0 <= Z.of_nat k < Z.of_nat (length l))%Z.
Proof.
  intros H. assert (k < length l)%nat by (apply nth_error_Some; congruence). lia.
Qed.

(** The nested loops list the index of a row once for every other star
    within 5 FWHM of it. *)
Lemma crowded_rows_spec (tbl : list star) (fwhm : float) (z : Z) :
  In z (crowded_rows tbl fwhm) <->
  exists k s, z = Z.of_nat k /\ nth_error tbl k = Some s /\ crowded tbl fwhm s = true.
Proof.
  unfold crowded_rows, crowded. rewrite in_flat_map. split.
  - intros ([i si] & Hi & Hz). apply in_flat_map in Hz.
    destruct Hz as ([j sj] & Hj & Hz). cbn [fst snd] in Hz.
    destruct (negb (star_id si =? star_id sj)%Z) eqn:Eid; [|destruct Hz].
    destruct (separation si sj <=? 5 * fwhm) eqn:Esep; [|destruct Hz].
    destruct Hz as [<- | []].
    exists i, si. split; [reflexivity|]. split; [now apply enumerate_In|].
    apply existsb_exists. exists sj. split.
    + apply enumerate_In in Hj. eapply nth_error_In; eassumption.
    + now rewrite Eid, Esep.
  - intros (k & s & -> & Hk & Hc). apply existsb_exists in Hc.
    destruct Hc as (t & Ht & Hc). apply andb_true_iff in Hc. destruct Hc as [Eid Esep].
    destruct (In_nth_error _ _ Ht) as [j Hj].
    exists (k, s). split; [now apply enumerate_In|].
    apply in_flat_map. exists (j, t). split; [now apply enumerate_In|].
    cbn [fst snd]. rewrite Eid, Esep. now left.
Qed.

Lemma faint_rows_spec (tbl : list star) (min_peak : float) (z : Z) :
  In z (faint_rows tbl min_peak) <->
  exists k s, z = Z.of_nat k /\ nth_error tbl k = Some s /\
              (star_peak s <=? min_peak) = true.
Proof.
  unfold faint_rows. rewrite in_flat_map. split.
  - intros ([k s] & Hk & Hz). cbn [fst snd] in Hz.
    destruct (star_peak s <=? min_peak) eqn:E; [|destruct Hz].
    destruct Hz as [<- | []]. exists k, s.
    split; [reflexivity|]. split; [now apply enumerate_In | exact E].
  - intros (k & s & -> & Hk & E). exists (k, s).
    split; [now apply enumerate_In|]. cbn [fst snd]. rewrite E. now left.
Qed.

Lemma row_index_last (n : nat) (z : Z) :
  (- Z.of_nat n <= z < 0)%Z -> row_index n z = Ok (n - Z.to_nat (- z))%nat.
Proof.
  intros H. unfold row_index.
  replace ((0 <=? z)%Z) with false by (symmetry; apply Z.leb_gt; lia).
  replace ((- Z.of_nat n <=? z)%Z) with true by (symmetry; apply Z.leb_le; lia).
  replace ((z <? 0)%Z) with true by (symmetry; apply Z.ltb_lt; lia).
  cbn. f_equal. lia.
Qed.

Lemma row_index_first (n : nat) (z : Z) :
  (0 <= z < Z.of_nat n)%Z -> row_index n z = Ok (Z.to_nat z).
Proof.
  intros H. unfold row_index.
  replace ((0 <=? z)%Z) with true by (symmetry; apply Z.leb_le; lia).
  replace ((z <? Z.of_nat n)%Z) with true by (symmetry; apply Z.ltb_lt; lia).
  reflexivity.
Qed.

(** On more than ten rows, removing rows -5 to 4 keeps the middle. *)
Lemma remove_rows_trim {A : Type} (l : list A) :
  (10 < length l)%nat ->
  remove_rows [-5; -4; -3; -2; -1; 0; 1; 2; 3; 4]%Z l
  = Ok (firstn (length l - 10) (skipn 5 l)).
Proof.
  intros Hn. unfold remove_rows. cbn [mapM].
  rewrite !row_index_last by lia. rewrite !row_index_first by lia.
  cbn [bind]. f_equal.
  replace (length l - 10)%nat with (length l - 5 - Nat.max 5 0)%nat by lia.
  change (skipn 5 l) with (skipn (5 - 0) l).
  unfold enumerate. rewrite <- range_enumerate. f_equal.
  apply filter_ext_in. intros [k a] Hk. cbn [fst].
  apply enumerate_from_In in Hk. destruct Hk as [_ Hk]. rewrite Nat.sub_0_r in Hk.
  assert (Hlt : (k < length l)%nat) by (apply nth_error_Some; congruence).
  apply eq_true_iff_eq.
  rewrite negb_true_iff, andb_true_iff, Nat.leb_le, Nat.ltb_lt.
  rewrite <- not_true_iff_false, existsb_eqb_In. cbn [In Z.to_nat Z.opp Pos.to_nat
    Pos.iter_op Nat.add]. lia.
Qed.

(** *** The sort *)

Lemma np_lt_asym (a b : float) : np_lt a b = true -> np_lt b a = false.
Proof.
  unfold np_lt. intros H. apply orb_true_iff in H. destruct H as [H | H].
  - pose proof (FloatOrder.ltb_not_leb _ _ H) as Hba.
    apply FloatOrder.ltb_true in H. destruct H as (Ha & Hb & _).
    rewrite Ha, andb_false_l, orb_false_r.
    destruct (b <? a) eqn:E; trivial.
    apply FloatOrder.ltb_leb in E. congruence.
  - apply andb_true_iff in H. destruct H as [Hb Ha].
    apply negb_true_iff in Ha. rewrite Ha, andb_false_l, orb_false_r.
    destruct (b <? a) eqn:E; trivial.
    apply FloatOrder.ltb_true in E. destruct E as (E & _). congruence.
Qed.

Section SortBy.

Variable A : Type.
Variable key : A -> float.

(** [a] may stand before [b] in ascending order. *)
Let before (a b : A) : Prop := np_lt (key b) (key a) = false.

Lemma insert_by_perm (x : A) (l : list A) : Permutation (insert_by key x l) (x :: l).
Proof.
  induction l as [|y l IH]; cbn; [reflexivity|].
  destruct (np_lt (key x) (key y)); [reflexivity|].
  rewrite IH. apply perm_swap.
Qed.

Lemma sort_by_perm (l : list A) : Permutation (sort_by key l) l.
Proof.
  unfold sort_by.
  assert (H : forall acc, Permutation (fold_left (fun acc x => insert_by key x acc) l acc)
                                      (l ++ acc)).
  { induction l as [|x l IH]; intros acc; cbn; [reflexivity|].
    rewrite IH, insert_by_perm. symmetry. apply Permutation_middle. }
  rewrite H. now rewrite app_nil_r.
Qed.

Lemma insert_by_sorted (x : A) (l : list A) :
  Sorted before l -> Sorted before (insert_by key x l).
Proof.
  induction l as [|y l IH]; intros Hs; cbn.
  - repeat constructor.
  - destruct (np_lt (key x) (key y)) eqn:E.
    + constructor; [exact Hs|]. constructor. unfold before. now apply np_lt_asym.
    + inversion Hs as [|? ? Hs' Hhd]; subst. constructor; [now apply IH|].
      destruct l as [|z l]; cbn.
      * constructor. exact E.
      * destruct (np_lt (key x) (key z)); constructor; [exact E|].
        now inversion Hhd.
Qed.

Lemma sort_by_sorted (l : list A) : Sorted before (sort_by key l).
Proof.
  unfold sort_by.
  assert (H : forall acc, Sorted before acc ->
              Sorted before (fold_left (fun acc x => insert_by key x acc) l acc)).
  { induction l as [|x l IH]; intros acc Hacc; cbn; [exact Hacc|].
    apply IH. now apply insert_by_sorted. }
  apply H. constructor.
Qed.

(** Without NaN among the keys the sorted list ascends for [<=]. *)
Lemma sort_by_ascending (l : list A) :
  Forall (fun a => is_nan (key a) = false) l ->
  StronglySorted (fun a b => (key a <=? key b) = true) (sort_by key l).
Proof.
  intros Hnan.
  assert (Hnan' : Forall (fun a => is_nan (key a) = false) (sort_by key l)).
  { eapply Permutation_Forall; [|exact Hnan]. symmetry. apply sort_by_perm. }
  apply Sorted_StronglySorted.
  { intros a b c. apply FloatOrder.leb_trans. }
  pose proof (sort_by_sorted l) as Hs.
  induction Hs as [|a s Hs IH Hhd]; [constructor|].
  inversion Hnan' as [|? ? Ha Hs']; subst.
  constructor; [now apply IH|].
  destruct Hhd as [|b s' Hab]; constructor.
  inversion Hs' as [|? ? Hb _]; subst.
  unfold before, np_lt in Hab. apply orb_false_iff in Hab. destruct Hab as [Hab _].
  now apply not_ltb_leb.
Qed.

End SortBy.

Lemma StronglySorted_app {A : Type} (R : A -> A -> Prop) (l1 l2 : list A) :
  StronglySorted R l1 -> StronglySorted R l2 ->
  (forall x y, In x l1 -> In y l2 -> R x y) ->
  StronglySorted R (l1 ++ l2).
Proof.
  intros H1 H2 H. induction H1 as [|a l1 H1 IH Ha]; [exact H2|].
  cbn. constructor.
  - apply IH. intros x y Hx Hy. apply H; [now right | exact Hy].
  - apply Forall_app. split; [exact Ha|].
    apply Forall_forall. intros y Hy. apply H; [now left | exact Hy].
Qed.

Lemma StronglySorted_rev {A : Type} (R : A -> A -> Prop) (l : list A) :
  StronglySorted R l -> StronglySorted (fun a b => R b a) (rev l).
Proof.
  intros H. induction H as [|a l H IH Ha]; [constructor|].
  cbn. apply StronglySorted_app; [exact IH | repeat constructor|].
  intros x y Hx [<- | []]. apply in_rev in Hx.
  rewrite Forall_forall in Ha. now apply Ha.
Qed.

(** [Table.sort('flux', reverse=True)] rearranges the rows, and leaves
    them in descending flux when no flux is NaN. *)
Lemma sort_flux_reverse_spec (tbl : list star) :
  Permutation (sort_flux_reverse tbl) tbl /\
  (Forall (fun s => is_nan (star_flux s) = false) tbl ->
   StronglySorted (fun a b => (star_flux b <=? star_flux a) = true)
                  (sort_flux_reverse tbl)).
Proof.
  unfold sort_flux_reverse. split.
  - rewrite <- Permutation_rev. apply sort_by_perm.
  - intros H. apply StronglySorted_rev with (R := fun a b => (star_flux a <=? star_flux b) = true).
    now apply sort_by_ascending.
Qed.

(** The order numpy sorts by, NaN last, is transitive. *)
Lemma np_le_trans (a b c : float) :
  np_lt b a = false -> np_lt c b = false -> np_lt c a = false.
Proof.
  unfold np_lt. intros Hab Hbc.
  apply orb_false_iff in Hab. destruct Hab as [Hab Hab'].
  apply orb_false_iff in Hbc. destruct Hbc as [Hbc Hbc'].
  destruct (is_nan c) eqn:Nc.
  - cbn. rewrite andb_false_r, orb_false_r.
    destruct (c <? a) eqn:E; trivial.
    apply FloatOrder.ltb_true in E. destruct E as (E & _). congruence.
  - destruct (is_nan b) eqn:Nb; [discriminate Hbc'|].
    destruct (is_nan a) eqn:Na; [discriminate Hab'|].
    cbn. rewrite orb_false_r.
    destruct (c <? a) eqn:E; trivial.
    pose proof (not_ltb_leb _ _ Nb Na Hab) as L1.
    pose proof (not_ltb_leb _ _ Nc Nb Hbc) as L2.
    pose proof (FloatOrder.leb_trans _ _ _ L1 L2) as L3.
    apply FloatOrder.ltb_not_leb in E. congruence.
Qed.

(** The stable sort is one of the sorts the library's may be. *)
Lemma sort_flux_reverse_admissible : sorts_flux_reverse sort_flux_reverse.
Proof.
  intros tbl. split; [apply sort_flux_reverse_spec|].
  unfold flux_descending, sort_flux_reverse.
  apply StronglySorted_rev
    with (R := fun a b => np_lt (star_flux b) (star_flux a) = false).
  apply Sorted_StronglySorted; [|apply sort_by_sorted].
  intros a b c. apply np_le_trans.
Qed.

(** Without NaN a table in descending flux descends for [<=]. *)
Lemma flux_descending_leb (tbl : list star) :
  flux_descending tbl ->
  Forall (fun s => is_nan (star_flux s) = false) tbl ->
  StronglySorted (fun a b => (star_flux b <=? star_flux a) = true) tbl.
Proof.
  unfold flux_descending. intros H.
  induction H as [|a l H IH Ha]; intros Hnan; [constructor|].
  inversion Hnan as [|? ? Hna Hnl]; subst.
  constructor; [now apply IH|].
  rewrite Forall_forall in *. intros b Hb.
  specialize (Ha b Hb). unfold np_lt in Ha. apply orb_false_iff in Ha.
  apply not_ltb_leb; [exact Hna | now apply Hnl | tauto].
Qed.




(** The index lists read as filters: whatever the sort, [image_mask]
    never raises and returns the sorted table of the rows its loops did
    not list, trimmed. *)
Lemma image_mask_kept (sort : list star -> list star)
      (im : image) (sources : list source) (fwhm bkg bkg_std : float) :
  image_mask sort im sources fwhm bkg bkg_std
  = Ok (trim5 (sort
         (filter (fun s =>
                    negb (crowded (filter (clear_of_border im) (map to_star sources))
                                  fwhm s
                          || faint bkg bkg_std s))
                 (filter (clear_of_border im) (map to_star sources))))).
Proof.
  unfold image_mask.
  set (survivors := filter (clear_of_border im) (map to_star sources)).
  assert (Htbl : np_mask
            (map (fun s =>
               (Z2f (100 - 1) / 2 <? xcentroid s) &&
               (xcentroid s <? Z2f (shape1 im - 1) - Z2f (100 - 1) / 2) &&
               (Z2f (100 - 1) / 2 <? ycentroid s) &&
               (ycentroid s <? Z2f (shape0 im - 1) - Z2f (100 - 1) / 2)) sources)
            (map (fun s => mkStar (xcentroid s) (ycentroid s) (flux s) (id s) (peak s))
                 sources) = survivors).
  { rewrite np_mask_map. unfold survivors. rewrite filter_map_swap. reflexivity. }
  cbv zeta. rewrite Htbl.
  rewrite (remove_rows_filter
             (fun s => crowded survivors fwhm s || faint bkg bkg_std s)).
  - cbn [bind]. unfold trim5.
    destruct (10 <? length _)%nat eqn:E; [|reflexivity].
    apply remove_rows_trim. now apply Nat.ltb_lt.
  - intros z Hz. apply in_app_or in Hz. destruct Hz as [Hz | Hz].
    + apply crowded_rows_spec in Hz. destruct Hz as (k & s & -> & Hk & _).
      eapply nth_error_lt; eassumption.
    + apply faint_rows_spec in Hz. destruct Hz as (k & s & -> & Hk & _).
      eapply nth_error_lt; eassumption.
  - intros k s Hk. rewrite in_app_iff, orb_true_iff.
    rewrite crowded_rows_spec, faint_rows_spec. unfold faint. split.
    + intros [(k' & s' & E & Hk' & H) | (k' & s' & E & Hk' & H)];
        apply Nat2Z.inj in E; subst k';
        assert (s' = s) by congruence; subst s'; [now left | now right].
    + intros [H | H]; [left | right]; now exists k, s.
Qed.



(** ** Local background subtractor *)

Lemma mapi_mapi {A B C : Type} (f : nat -> B -> C) (g : nat -> A -> B) (l : list A) :
  mapi f (mapi g l) = mapi (fun k a => f k (g k a)) l.
Proof.
  unfold mapi, enumerate. generalize 0%nat as b.
  induction l as [|a l IH]; intros b; cbn; [reflexivity | now rewrite IH].
Qed.

Lemma mapi_ext {A B : Type} (f g : nat -> A -> B) (l : list A) :
  (forall k a, f k a = g k a) -> mapi f l = mapi g l.
Proof.
  intros H. unfold mapi. apply map_ext. intros [k a]. apply H.
Qed.

(** Subtracting one window and then the others is subtracting them all. *)
Lemma image_after_cons (im : image) (w : window) (ws : list window) :
  image_after (subtract_window im (w_pos0 w) (w_pos1 w) (w_size w) (w_bkg w)) ws
  = image_after im (w :: ws).
Proof.
  unfold image_after, subtract_window. rewrite mapi_mapi.
  apply mapi_ext. intros r row. cbn [pixel_after]. unfold covers.
  destruct (in_window (w_pos1 w) (w_size w) r); cbn [andb].
  - rewrite mapi_mapi. reflexivity.
  - reflexivity.
Qed.

Lemma image_after_nil (im : image) : image_after im [] = im.
Proof.
  unfold image_after, mapi, enumerate. cbn [pixel_after].
  assert (H : forall (A : Type) (l : list A) b,
            map (fun p => snd p) (enumerate_from b l) = l).
  { intros A l. induction l as [|a l IH]; intros b; cbn; [reflexivity | now rewrite IH]. }
  rewrite <- (H _ im 0%nat) at 2. apply map_ext. intros [r row]. cbn [fst snd]. apply H.
Qed.

(** [bkg_sub] is the per-pixel subtraction of every covering window. *)
Lemma bkg_sub_image_after
      (annulus_median : image -> float -> float -> result float)
      (im : image) (stars_tbl : list star) (fwhm : float) :
  bkg_sub annulus_median im stars_tbl fwhm =
  (ws <- bkg_windows annulus_median fwhm im stars_tbl ;; Ok (image_after im ws)).
Proof.
  unfold bkg_sub. revert im.
  induction stars_tbl as [|s rest IH]; intros im.
  - cbn. now rewrite image_after_nil.
  - cbn [foldM bkg_windows]. unfold bkg_sub_star.
    destruct (annulus_median im (star_x s) (star_y s)) as [b|e]; [|reflexivity].
    cbn [bind].
    destruct (np_int (np_round (star_x s))) as [p0|e]; [|reflexivity]. cbn [bind].
    destruct (np_int (np_round (star_y s))) as [p1|e]; [|reflexivity]. cbn [bind].
    rewrite IH.
    destruct (bkg_windows annulus_median fwhm _ rest) as [ws|e]; [|reflexivity].
    cbn [bind]. f_equal.
    exact (image_after_cons im (mkWindow p0 p1 (5 * fwhm) b) ws).
Qed.

Lemma pixel_after_outside (v : float) (r c : nat) (ws : list window) :
  (forall w, In w ws -> covers w r c = false) -> pixel_after v r c ws = v.
Proof.
  induction ws as [|w ws IH]; intros H; [reflexivity|].
  cbn [pixel_after]. rewrite (H w (or_introl eq_refl)).
  apply IH. intros w' Hw'. apply H. now right.
Qed.

Lemma nth_error_mapi {A B : Type} (f : nat -> A -> B) (l : list A) (k : nat) :
  nth_error (mapi f l) k = option_map (f k) (nth_error l k).
Proof.
  unfold mapi, enumerate.
  assert (H : forall b, nth_error (map (fun p => f (fst p) (snd p)) (enumerate_from b l)) k
                        = option_map (f (b + k)%nat) (nth_error l k)).
  { revert k. induction l as [|a l IH]; intros k b.
    - destruct k; reflexivity.
    - destruct k as [|k]; cbn.
      + now rewrite Nat.add_0_r.
      + rewrite IH. now rewrite Nat.add_succ_r. }
  apply H.
Qed.

Lemma pixel_image_after (im : image) (ws : list window)
      (r c : nat) (row : list float) (v : float) :
  nth_error im r = Some row -> nth_error row c = Some v ->
  pixel (image_after im ws) r c = pixel_after v r c ws.
Proof.
  intros Hr Hc. unfold pixel, image_after.
  assert (Hrow : nth_error (mapi (fun r row => mapi (fun c v => pixel_after v r c ws) row) im) r
                 = Some (mapi (fun c v => pixel_after v r c ws) row)).
  { now rewrite nth_error_mapi, Hr. }
  rewrite (nth_error_nth _ _ _ Hrow).
  apply nth_error_nth. now rewrite nth_error_mapi, Hc.
Qed.

Lemma pixel_after_app (v : float) (r c : nat) (l l' : list window) :
  pixel_after v r c (l ++ l') = pixel_after (pixel_after v r c l) r c l'.
Proof.
  revert v. induction l as [|w l IH]; intros v; [reflexivity|].
  cbn [app pixel_after]. apply IH.
Qed.

Lemma bkg_windows_centres
      (annulus_median : image -> float -> float -> result float)
      (fwhm : float) (im : image) (stars_tbl : list star) (ws : list window) :
  bkg_windows annulus_median fwhm im stars_tbl = Ok ws ->
  Forall2 (fun s w =>
             np_int (np_round (star_x s)) = Ok (w_pos0 w) /\
             np_int (np_round (star_y s)) = Ok (w_pos1 w) /\
             w_size w = 5 * fwhm) stars_tbl ws.
Proof.
  revert im ws. induction stars_tbl as [|s rest IH]; intros im ws; cbn [bkg_windows].
  - intros [= <-]. constructor.
  - destruct (annulus_median im (star_x s) (star_y s)) as [b|e]; [|discriminate].
    cbn [bind].
    destruct (np_int (np_round (star_x s))) as [p0|e] eqn:E0; [|discriminate].
    cbn [bind].
    destruct (np_int (np_round (star_y s))) as [p1|e] eqn:E1; [|discriminate].
    cbn [bind].
    destruct (bkg_windows annulus_median fwhm _ rest) as [ws'|e] eqn:E; [|discriminate].
    cbn [bind]. intros [= <-]. constructor; [now repeat split|].
    eapply IH. exact E.
Qed.

(** C3 as amended.  [bkg_sub] works on a copy and returns it: for each
    star in table order it takes a background estimate on the working
    image, as the earlier stars left it, and subtracts it from every
    pixel of the open square window of side 5 FWHM centred on the
    star's rounded position.  (1) The image returned is the input with,
    at every pixel, the estimates of all the windows that cover it
    subtracted one after the other.  (2) The windows are centred on the
    rounded positions and have side 5 FWHM.  (3) A pixel no window
    covers keeps its value.  (4) A pixel two windows cover has both
    estimates subtracted: the subtraction is additive, the later star
    does not overwrite the earlier one. *)
Theorem bkg_sub_subtracts_every_window
      (annulus_median : image -> float -> float -> result float)
      (im : image) (stars_tbl : list star) (fwhm : float) :
  bkg_sub annulus_median im stars_tbl fwhm =
    (ws <- bkg_windows annulus_median fwhm im stars_tbl ;; Ok (image_after im ws)) /\
  (forall ws,
     bkg_windows annulus_median fwhm im stars_tbl = Ok ws ->
     Forall2 (fun s w =>
                np_int (np_round (star_x s)) = Ok (w_pos0 w) /\
                np_int (np_round (star_y s)) = Ok (w_pos1 w) /\
                w_size w = 5 * fwhm) stars_tbl ws /\
     forall r c row v,
       nth_error im r = Some row -> nth_error row c = Some v ->
       pixel (image_after im ws) r c = pixel_after v r c ws) /\
  (forall v r c ws,
     (forall w, In w ws -> covers w r c = false) -> pixel_after v r c ws = v) /\
  (forall v r c l1 w1 l2 w2 l3,
     covers w1 r c = true -> covers w2 r c = true ->
     (forall w, In w (l1 ++ l2 ++ l3) -> covers w r c = false) ->
     pixel_after v r c (l1 ++ w1 :: l2 ++ w2 :: l3) = v - w_bkg w1 - w_bkg w2).
Proof.
  split; [apply bkg_sub_image_after|]. split; [|split].
  - intros ws Hws. split; [eapply bkg_windows_centres; eassumption|].
    intros r c row v. apply pixel_image_after.
  - apply pixel_after_outside.
  - intros v r c l1 w1 l2 w2 l3 H1 H2 Hout.
    rewrite pixel_after_app. cbn [pixel_after]. rewrite H1.
    rewrite pixel_after_app. cbn [pixel_after].
    rewrite (pixel_after_outside v r c l1), (pixel_after_outside _ r c l2).
    + rewrite H2. apply pixel_after_outside.
      intros w Hw. apply Hout. rewrite !in_app_iff. tauto.
    + intros w Hw. apply Hout. rewrite !in_app_iff. tauto.
    + intros w Hw. apply Hout. rewrite !in_app_iff. tauto.
Qed.

(** C3 as amended, on the flat image of 100 with two stars 2 px apart:
    both estimates are 100, the pixel (40, 40), in both windows, ends at
    100 - 100 - 100, and the corner pixel keeps its value. *)
Lemma bkg_sub_subtracts_every_window_witness :
  bkg_sub annulus_plain_median flat_81 close_pair 2
    = Ok (image_after flat_81 [mkWindow 40 40 10 100; mkWindow 42 40 10 100]) /\
  pixel_after 100 40 40 [mkWindow 40 40 10 100; mkWindow 42 40 10 100]
    = 100 - 100 - 100 /\
  pixel_after 100 0 0 [mkWindow 40 40 10 100; mkWindow 42 40 10 100] = 100.
Proof.
  pose proof (bkg_sub_subtracts_every_window annulus_plain_median flat_81 close_pair 2)
    as (H1 & _ & H3 & H4).
  split; [|split].
  - rewrite H1.
    assert (E : bkg_windows annulus_plain_median 2 flat_81 close_pair
                = Ok [mkWindow 40 40 10 100; mkWindow 42 40 10 100])
      by (vm_compute; reflexivity).
    rewrite E. reflexivity.
  - apply (H4 100 40%nat 40%nat [] (mkWindow 40 40 10 100) []
              (mkWindow 42 40 10 100) []); [reflexivity | reflexivity | intros w []].
  - apply H3. intros w [<- | [<- | []]]; reflexivity.
Defined.

(** C3 as worded fails where windows overlap.  On the flat image of 100
    the two stars get the estimates 100 and 100; the pixel (40, 40) lies
    in both windows; the code leaves it at -100, both estimates
    subtracted, where the claim has the original minus the later
    estimate only, 0. *)
Lemma bkg_sub_overlap_counterexample :
  bkg_windows annulus_plain_median 2 flat_81 close_pair
    = Ok [mkWindow 40 40 10 100; mkWindow 42 40 10 100] /\
  covers (mkWindow 40 40 10 100) 40 40 = true /\
  covers (mkWindow 42 40 10 100) 40 40 = true /\
  match bkg_sub annulus_plain_median flat_81 close_pair 2 with
  | Ok out => Some (pixel out 40 40)
  | Raise _ => None
  end = Some (-100) /\
  pixel_last_writer (pixel flat_81 40 40) 40 40
    [mkWindow 40 40 10 100; mkWindow 42 40 10 100] = 0.
Proof.
  repeat apply conj; vm_compute; reflexivity.
Qed.

(* ================================================================== *)
(** * Part III: further properties of the code                         *)
(* ================================================================== *)

(** ** [np.roll]: where each pixel goes *)

(** The element at index [i] of a rolled list is the one that stood at
    index [(i - shift) mod n]. *)
Lemma nth_error_np_roll1 {A : Type} (l : list A) (k : Z) (i : nat) :
  (i < length l)%nat ->
  nth_error (np_roll1 l k) i =
  nth_error l (Z.to_nat ((Z.of_nat i - k) mod Z.of_nat (length l))).
Proof.
  intros Hi. unfold np_roll1.
  set (n := length l) in *.
  assert (Hn : (0 < Z.of_nat n)%Z) by lia.
  replace (n =? 0)%nat with false by (symmetry; apply Nat.eqb_neq; lia).
  pose proof (Z.mod_pos_bound k (Z.of_nat n) Hn) as Hk.
  rewrite <- (Zminus_mod_idemp_r (Z.of_nat i) k).
  set (o := Z.to_nat (k mod Z.of_nat n)).
  assert (Ho : (k mod Z.of_nat n = Z.of_nat o)%Z) by (subst o; lia).
  rewrite Ho.
  destruct (o =? 0)%nat eqn:E0.
  - apply Nat.eqb_eq in E0. rewrite E0. cbn [Z.of_nat].
    rewrite Z.sub_0_r, Z.mod_small by lia. now rewrite Nat2Z.id.
  - apply Nat.eqb_neq in E0.
    assert (Hlen : length (skipn (n - o) l) = o) by (rewrite length_skipn; subst n; lia).
    destruct (Nat.lt_ge_cases i o) as [Hlt | Hge].
    + rewrite nth_error_app1 by lia. rewrite nth_error_skipn. f_equal.
      replace ((Z.of_nat i - Z.of_nat o) mod Z.of_nat n)%Z
        with (Z.of_nat i - Z.of_nat o + Z.of_nat n)%Z; [lia|].
      symmetry. rewrite <- (Z.mod_add _ 1) by lia.
      rewrite Z.mul_1_l. apply Z.mod_small. lia.
    + rewrite nth_error_app2 by lia. rewrite Hlen, nth_error_firstn.
      replace (i - o <? n - o)%nat with true by (symmetry; apply Nat.ltb_lt; lia).
      f_equal. rewrite Z.mod_small by lia. lia.
Qed.

(** Rolling twice is rolling by the sum of the shifts. *)
Lemma np_roll1_compose {A : Type} (l : list A) (a b : Z) :
  np_roll1 (np_roll1 l a) b = np_roll1 l (a + b).
Proof.
  apply nth_error_ext. intros i.
  destruct (Nat.lt_ge_cases i (length l)) as [Hi | Hi].
  - assert (Hn : (0 < Z.of_nat (length l))%Z) by lia.
    rewrite nth_error_np_roll1 by (now rewrite np_roll1_length).
    rewrite np_roll1_length.
    pose proof (Z.mod_pos_bound (Z.of_nat i - b) (Z.of_nat (length l)) Hn) as Hb.
    rewrite nth_error_np_roll1 by lia.
    rewrite nth_error_np_roll1 by lia.
    f_equal. f_equal. rewrite Z2Nat.id by lia.
    rewrite Zminus_mod_idemp_l. f_equal. lia.
  - assert (H1 : nth_error (np_roll1 (np_roll1 l a) b) i = None)
      by (apply nth_error_None; now rewrite !np_roll1_length).
    assert (H2 : nth_error (np_roll1 l (a + b)) i = None)
      by (apply nth_error_None; now rewrite np_roll1_length).
    congruence.
Qed.

Lemma np_roll1_perm {A : Type} (l : list A) (k : Z) : Permutation (np_roll1 l k) l.
Proof.
  unfold np_roll1. destruct (_ =? 0)%nat; [reflexivity|].
  rewrite Permutation_app_comm. now rewrite firstn_skipn.
Qed.

Lemma concat_perm_rows {A : Type} (f : list A -> list A) (a : list (list A)) :
  (forall row, Permutation (f row) row) ->
  Permutation (concat (map f a)) (concat a).
Proof.
  intros H. induction a as [|row a IH]; cbn; [reflexivity|].
  now apply Permutation_app.
Qed.

Lemma concat_perm {A : Type} (a a' : list (list A)) :
  Permutation a a' -> Permutation (concat a) (concat a').
Proof.
  intros H. induction H; cbn.
  - reflexivity.
  - now apply Permutation_app_head.
  - rewrite !app_assoc. apply Permutation_app_tail, Permutation_app_comm.
  - etransitivity; eassumption.
Qed.

(** X1. [np.roll] on an image of [W] columns: the pixel at row [r],
    column [c] of the rolled image is the pixel that stood at row
    [(r - dy) mod H], column [(c - dx) mod W]: content leaving one edge
    comes back at the opposite edge. *)
Theorem np_roll_pixel (im : image) (W : nat) (dy dx : Z) (r c : nat) :
  Forall (fun row => length row = W) im ->
  (r < length im)%nat -> (c < W)%nat ->
  pixel (np_roll im dy dx) r c =
  pixel im (Z.to_nat ((Z.of_nat r - dy) mod Z.of_nat (length im)))
           (Z.to_nat ((Z.of_nat c - dx) mod Z.of_nat W)).
Proof.
  intros Hrect Hr Hc. unfold pixel, np_roll.
  set (r' := Z.to_nat ((Z.of_nat r - dy) mod Z.of_nat (length im))).
  assert (Hr' : (r' < length im)%nat).
  { subst r'. pose proof (Z.mod_pos_bound (Z.of_nat r - dy) (Z.of_nat (length im))). lia. }
  destruct (nth_error im r') as [row|] eqn:Erow;
    [|apply nth_error_None in Erow; lia].
  assert (Hrow : length row = W).
  { rewrite Forall_forall in Hrect. apply Hrect. eapply nth_error_In; eassumption. }
  assert (E : nth_error (np_roll1 (map (fun row => np_roll1 row dx) im) dy) r
              = Some (np_roll1 row dx)).
  { rewrite nth_error_np_roll1 by (now rewrite length_map).
    rewrite length_map. fold r'. now rewrite nth_error_map, Erow. }
  rewrite (nth_error_nth _ _ _ E), (nth_error_nth _ _ _ Erow).
  set (c' := Z.to_nat ((Z.of_nat c - dx) mod Z.of_nat W)).
  assert (Hc' : (c' < W)%nat).
  { subst c'. pose proof (Z.mod_pos_bound (Z.of_nat c - dx) (Z.of_nat W)). lia. }
  destruct (nth_error row c') as [v|] eqn:Ev;
    [|apply nth_error_None in Ev; lia].
  rewrite (nth_error_nth _ _ _ Ev).
  apply nth_error_nth. rewrite nth_error_np_roll1 by lia. rewrite Hrow. exact Ev.
Qed.

(** X1 on the 3 x 4 image rolled by (1, 1): the pixel at (0, 0) is the
    one from the opposite corner. *)
Lemma np_roll_pixel_witness :
  pixel (np_roll image_3x4 1 1) 0 0 = 12.
Proof.
  rewrite (np_roll_pixel image_3x4 4 1 1 0 0).
  - reflexivity.
  - repeat constructor.
  - cbn; lia.
  - lia.
Defined.

(** X2. Two rolls compose into one roll by the sum of the shifts, on
    every image and along both axes. *)
Theorem np_roll_compose (im : image) (a b c d : Z) :
  np_roll (np_roll im a b) c d = np_roll im (a + c) (b + d).
Proof.
  unfold np_roll.
  rewrite np_roll1_map, np_roll1_compose, map_map. f_equal.
  apply map_ext. intros row. apply np_roll1_compose.
Qed.

(** X3. [roll_image], when it returns, returns an image of the same
    shape that holds the same pixels: as many rows, rows of [W] columns
    when the input has rows of [W] columns, and the pixels of the input
    rearranged. *)
Theorem roll_image_keeps_pixels (im im' : image) (diff : list shift_row)
                                (threshold : float) :
  roll_image im diff threshold = Ok im' ->
  length im' = length im /\
  Permutation (concat im') (concat im) /\
  forall W, Forall (fun row => length row = W) im ->
            Forall (fun row => length row = W) im'.
Proof.
  assert (Hroll : forall dy dx,
            length (np_roll im dy dx) = length im /\
            Permutation (concat (np_roll im dy dx)) (concat im) /\
            forall W, Forall (fun row => length row = W) im ->
                      Forall (fun row => length row = W) (np_roll im dy dx)).
  { intros dy dx. unfold np_roll. split; [|split].
    - now rewrite np_roll1_length, length_map.
    - rewrite (concat_perm _ _ (np_roll1_perm _ dy)).
      apply concat_perm_rows. intros row. apply np_roll1_perm.
    - intros W HW. eapply Permutation_Forall; [symmetry; apply np_roll1_perm|].
      apply Forall_map. eapply Forall_impl; [|exact HW].
      intros row Hrow. cbn. now rewrite np_roll1_length. }
  unfold roll_image. destruct (threshold <=? _).
  - destruct (np_int _) as [xi|e]; [|discriminate]. cbn [bind].
    destruct (np_int _) as [yi|e]; [|discriminate]. cbn [bind].
    intros [= <-]. apply Hroll.
  - intros [= <-]. repeat split; trivial.
Qed.

(** X3 on the 3 x 4 image and one record (5, 1, 1). *)
Lemma roll_image_keeps_pixels_witness :
  Permutation (concat (np_roll image_3x4 1 1)) (concat image_3x4).
Proof.
  exact (proj1 (proj2 (roll_image_keeps_pixels image_3x4 (np_roll image_3x4 1 1)
                         [(5, 1, 1)] 0.5 eq_refl))).
Defined.

(** ** Star selector: what the selected stars satisfy *)


Lemma In_firstn {A : Type} (n : nat) (l : list A) (x : A) : In x (firstn n l) -> In x l.
Proof.
  intros H. rewrite <- (firstn_skipn n l). apply in_or_app. now left.
Qed.





Lemma StronglySorted_skipn {A : Type} (R : A -> A -> Prop) (n : nat) (l : list A) :
  StronglySorted R l -> StronglySorted R (skipn n l).
Proof.
  intros H. revert n. induction H as [|a l H IH Ha]; intros [|n]; cbn;
    try constructor; auto.
Qed.

Lemma StronglySorted_firstn {A : Type} (R : A -> A -> Prop) (n : nat) (l : list A) :
  StronglySorted R l -> StronglySorted R (firstn n l).
Proof.
  intros H. revert n. induction H as [|a l H IH Ha]; intros [|n]; cbn;
    try constructor; auto.
  rewrite Forall_forall in *. intros x Hx. apply Ha. eapply In_firstn, Hx.
Qed.

(** X5. When no detection has a NaN flux, the table [image_mask]
    returns is in descending order of flux, whatever the sort does with
    rows of equal flux. *)
Theorem image_mask_descending (sort : list star -> list star)
      (im : image) (sources : list source) (fwhm bkg bkg_std : float) :
  sorts_flux_reverse sort ->
  Forall (fun s => is_nan (flux s) = false) sources ->
  exists out,
    image_mask sort im sources fwhm bkg bkg_std = Ok out /\
    StronglySorted (fun a b => (star_flux b <=? star_flux a) = true) out.
Proof.
  intros Hsort Hnan. eexists. split; [apply image_mask_kept|].
  set (survivors := filter (clear_of_border im) (map to_star sources)).
  set (kept := filter _ survivors).
  assert (Hkept : Forall (fun s => is_nan (star_flux s) = false) (sort kept)).
  { apply Forall_forall. intros s Hs.
    apply (Permutation_in _ (proj1 (Hsort kept))) in Hs.
    unfold kept, survivors in Hs.
    apply filter_In in Hs. destruct Hs as [Hs _].
    apply filter_In in Hs. destruct Hs as [Hs _].
    apply in_map_iff in Hs. destruct Hs as (src & <- & Hsrc).
    rewrite Forall_forall in Hnan. exact (Hnan src Hsrc). }
  pose proof (flux_descending_leb _ (proj2 (Hsort kept)) Hkept) as Hsorted.
  unfold trim5. destruct (10 <? _)%nat; [|exact Hsorted].
  now apply StronglySorted_firstn, StronglySorted_skipn.
Qed.

(** X5 on the fourteen detections, with the stable sort. *)
Lemma image_mask_descending_witness :
  exists out,
    image_mask sort_flux_reverse frame_300 fourteen_sources 2 1000 50 = Ok out /\
    StronglySorted (fun a b => (star_flux b <=? star_flux a) = true) out.
Proof.
  apply image_mask_descending; [exact sort_flux_reverse_admissible|].
  repeat (constructor; [reflexivity|]). constructor.
Defined.

(** ** Local background subtractor: windows, shape and errors *)

Lemma sub_zero_key (a z : float) (s : bool) :
  Prim2SF z = S754_zero s ->
  is_nan (a - z) = is_nan a /\ fkey (a - z) = fkey a.
Proof.
  intros Hz.
  assert (H : Prim2SF (a - z) = Prim2SF a \/
              exists s1 s2, Prim2SF a = S754_zero s1 /\ Prim2SF (a - z) = S754_zero s2).
  { rewrite sub_spec, Hz. destruct (Prim2SF a) as [s1| s1| |s1 m e]; cbn.
    - right. exists s1. destruct s1, s; eexists; split; reflexivity.
    - now left.
    - now left.
    - now left. }
  assert (Hn : forall x y, Prim2SF x = Prim2SF y -> is_nan x = is_nan y).
  { intros x y E. destruct (is_nan y) eqn:Ey.
    - apply FloatOrder.is_nan_spec. rewrite E. now apply FloatOrder.is_nan_spec.
    - apply FloatOrder.not_nan_spec. rewrite E. now apply FloatOrder.not_nan_spec. }
  destruct H as [H | (s1 & s2 & H1 & H2)].
  - split; [now apply Hn|]. unfold fkey. now rewrite H.
  - split.
    + transitivity false; [|symmetry]; apply FloatOrder.not_nan_spec; congruence.
    + unfold fkey. now rewrite H1, H2.
Qed.

Lemma add_zero_key (a z : float) (s : bool) :
  Prim2SF z = S754_zero s ->
  is_nan (a + z) = is_nan a /\ fkey (a + z) = fkey a.
Proof.
  intros Hz.
  assert (H : Prim2SF (a + z) = Prim2SF a \/
              exists s1 s2, Prim2SF a = S754_zero s1 /\ Prim2SF (a + z) = S754_zero s2).
  { rewrite add_spec, Hz. destruct (Prim2SF a) as [s1| s1| |s1 m e]; cbn.
    - right. exists s1. destruct s1, s; eexists; split; reflexivity.
    - now left.
    - now left.
    - now left. }
  assert (Hn : forall x y, Prim2SF x = Prim2SF y -> is_nan x = is_nan y).
  { intros x y E. destruct (is_nan y) eqn:Ey.
    - apply FloatOrder.is_nan_spec. rewrite E. now apply FloatOrder.is_nan_spec.
    - apply FloatOrder.not_nan_spec. rewrite E. now apply FloatOrder.not_nan_spec. }
  destruct H as [H | (s1 & s2 & H1 & H2)].
  - split; [now apply Hn|]. unfold fkey. now rewrite H.
  - split.
    + transitivity false; [|symmetry]; apply FloatOrder.not_nan_spec; congruence.
    + unfold fkey. now rewrite H1, H2.
Qed.

Lemma half_window_zero (fwhm : float) :
  (fwhm =? 0) = true -> exists s, Prim2SF (5 * fwhm / 2) = S754_zero s.
Proof.
  rewrite eqb_spec. rewrite div_spec, mul_spec.
  let v := eval vm_compute in (Prim2SF 0) in change (Prim2SF 0) with v.
  let v := eval vm_compute in (Prim2SF 5) in change (Prim2SF 5) with v.
  let v := eval vm_compute in (Prim2SF 2) in change (Prim2SF 2) with v.
  destruct (Prim2SF fwhm) as [s| s| |s m e].
  - intros _. exists s. destruct s; reflexivity.
  - destruct s; discriminate.
  - discriminate.
  - destruct s; discriminate.
Qed.

Lemma half_window_nan (fwhm : float) :
  is_nan fwhm = true -> is_nan (5 * fwhm / 2) = true.
Proof.
  intros H. apply FloatOrder.is_nan_spec in H. apply FloatOrder.is_nan_spec.
  rewrite div_spec, mul_spec, H. reflexivity.
Qed.

Lemma in_window_empty (p : Z) (fwhm : float) (r : nat) :
  (fwhm =? 0) = true \/ is_nan fwhm = true ->
  in_window p (5 * fwhm) r = false.
Proof.
  intros H. unfold in_window.
  set (a := Z2f p). set (b := Z2f (Z.of_nat r)). set (h := 5 * fwhm / 2).
  destruct (a - h <? b) eqn:E1; [|reflexivity].
  destruct (b <? a + h) eqn:E2; [|reflexivity]. exfalso.
  apply FloatOrder.ltb_true in E1. destruct E1 as (N1 & Nb & L1).
  apply FloatOrder.ltb_true in E2. destruct E2 as (_ & N2 & L2).
  destruct H as [H | H].
  - destruct (half_window_zero fwhm H) as [s Hs]. fold h in Hs.
    destruct (sub_zero_key a h s Hs) as [_ K1].
    destruct (add_zero_key a h s Hs) as [_ K2].
    rewrite K1 in L1. rewrite K2 in L2.
    pose proof (FloatOrder.lex3_cases (fkey a) (fkey b)) as C1. rewrite L1 in C1.
    pose proof (FloatOrder.lex3_cases (fkey b) (fkey a)) as C2. rewrite L2 in C2.
    unfold lexlt in *. lia.
  - apply half_window_nan in H. fold h in H.
    assert (is_nan (a - h) = true); [|congruence].
    apply FloatOrder.is_nan_spec. rewrite sub_spec.
    apply FloatOrder.is_nan_spec in H. rewrite H.
    destruct (Prim2SF a); reflexivity.
Qed.

Lemma mapi_same {A : Type} (f : nat -> A -> A) (l : list A) :
  (forall k a, f k a = a) -> mapi f l = l.
Proof.
  intros H. unfold mapi, enumerate. generalize 0%nat as k.
  induction l as [|a l IH]; intros k; cbn; [reflexivity|].
  now rewrite H, IH.
Qed.

Lemma length_mapi {A B : Type} (f : nat -> A -> B) (l : list A) :
  length (mapi f l) = length l.
Proof.
  unfold mapi, enumerate. rewrite length_map. generalize 0%nat as k.
  induction l as [|a l IH]; intros k; cbn; [reflexivity | now rewrite IH].
Qed.

Lemma subtract_window_empty (im : image) (pos0 pos1 : Z) (fwhm bkg_median : float) :
  (fwhm =? 0) = true \/ is_nan fwhm = true ->
  subtract_window im pos0 pos1 (5 * fwhm) bkg_median = im.
Proof.
  intros H. unfold subtract_window. apply mapi_same. intros r row.
  now rewrite in_window_empty.
Qed.

(** X6. With an FWHM of zero, or NaN, no pixel lies strictly inside a
    window, so the image [bkg_sub] returns is the one it was given. *)
Theorem bkg_sub_zero_fwhm
      (annulus_median : image -> float -> float -> result float)
      (im out : image) (stars_tbl : list star) (fwhm : float) :
  (fwhm =? 0) = true \/ is_nan fwhm = true ->
  bkg_sub annulus_median im stars_tbl fwhm = Ok out ->
  out = im.
Proof.
  intros Hf. unfold bkg_sub.
  induction stars_tbl as [|s rest IH]; cbn [foldM].
  - congruence.
  - unfold bkg_sub_star at 1.
    destruct (annulus_median im (star_x s) (star_y s)) as [b|e]; [|discriminate].
    cbn [bind].
    destruct (np_int (np_round (star_x s))) as [p0|e]; [|discriminate]. cbn [bind].
    destruct (np_int (np_round (star_y s))) as [p1|e]; [|discriminate]. cbn [bind].
    now rewrite subtract_window_empty.
Qed.

Lemma bkg_sub_zero_fwhm_witness :
  bkg_sub annulus_plain_median flat_81 close_pair 0 = Ok flat_81.
Proof.
  assert (E : exists out, bkg_sub annulus_plain_median flat_81 close_pair 0 = Ok out).
  { eexists. vm_compute. reflexivity. }
  destruct E as [out E]. rewrite E. f_equal.
  apply (bkg_sub_zero_fwhm annulus_plain_median flat_81 out close_pair 0);
    [left; reflexivity | exact E].
Defined.

(** X7. The image [bkg_sub] returns has the shape of the one it was
    given: as many rows, each of the same length. *)
Theorem bkg_sub_shape
      (annulus_median : image -> float -> float -> result float)
      (im out : image) (stars_tbl : list star) (fwhm : float) :
  bkg_sub annulus_median im stars_tbl fwhm = Ok out ->
  Forall2 (fun row' row => length row' = length row) out im.
Proof.
  rewrite bkg_sub_image_after.
  destruct (bkg_windows annulus_median fwhm im stars_tbl) as [ws|e]; [|discriminate].
  cbn [bind]. intros [= <-]. unfold image_after.
  apply mapi_Forall2. intros r row. apply length_mapi.
Qed.

Lemma bkg_sub_shape_witness :
  exists out, bkg_sub annulus_plain_median flat_81 close_pair 2 = Ok out /\
              Forall2 (fun row' row => length row' = length row) out flat_81.
Proof.
  assert (E : exists out, bkg_sub annulus_plain_median flat_81 close_pair 2 = Ok out).
  { eexists. vm_compute. reflexivity. }
  destruct E as [out E]. exists out. split; [exact E|].
  exact (bkg_sub_shape annulus_plain_median flat_81 out close_pair 2 E).
Defined.

Lemma np_int_nan (x : float) :
  is_nan x = true -> np_int (np_round x) = Raise ValueError.
Proof.
  intros H. apply FloatOrder.is_nan_spec in H.
  unfold np_round. rewrite H. unfold np_int. now rewrite H.
Qed.

Lemma is_infinity_spec (x : float) :
  is_infinity x = true -> exists s, Prim2SF x = S754_infinity s.
Proof.
  unfold is_infinity. rewrite eqb_spec, abs_spec.
  let v := eval vm_compute in (Prim2SF infinity) in change (Prim2SF infinity) with v.
  destruct (Prim2SF x) as [s| s| |s m e]; try discriminate.
  intros _. now exists s.
Qed.

Lemma np_int_infinity (x : float) :
  is_infinity x = true -> np_int (np_round x) = Raise OverflowError.
Proof.
  intros H. apply is_infinity_spec in H. destruct H as [s H].
  unfold np_round. rewrite H. unfold np_int. now rewrite H.
Qed.

(** X8. A star whose x or y is NaN or infinite makes [bkg_sub] raise:
    no image is returned, whatever the other stars are. *)
Theorem bkg_sub_non_finite_position
      (annulus_median : image -> float -> float -> result float)
      (im : image) (stars_tbl : list star) (fwhm : float) (s : star) :
  In s stars_tbl ->
  is_finite (star_x s) && is_finite (star_y s) = false ->
  exists e, bkg_sub annulus_median im stars_tbl fwhm = Raise e.
Proof.
  intros Hin Hs.
  assert (Hstar : forall im', exists e, bkg_sub_star annulus_median fwhm im' s = Raise e).
  { intros im'. unfold bkg_sub_star.
    destruct (annulus_median im' (star_x s) (star_y s)) as [b|e]; [|now exists e].
    cbn [bind].
    assert (Hraise : forall x, is_finite x = false ->
                       exists e, np_int (np_round x) = Raise e).
    { intros x Hx. unfold is_finite in Hx. apply negb_false_iff, orb_true_iff in Hx.
      destruct Hx as [Hx | Hx]; eexists;
        [now apply np_int_nan | now apply np_int_infinity]. }
    apply andb_false_iff in Hs. destruct Hs as [Hx | Hy].
    - destruct (Hraise _ Hx) as [e ->]. now exists e.
    - destruct (np_int (np_round (star_x s))) as [p0|e]; [|now exists e].
      cbn [bind]. destruct (Hraise _ Hy) as [e ->]. now exists e. }
  unfold bkg_sub. revert im.
  induction stars_tbl as [|a rest IH]; intros im; [destruct Hin|].
  cbn [foldM]. destruct Hin as [-> | Hin].
  - destruct (Hstar im) as [e ->]. now exists e.
  - destruct (bkg_sub_star annulus_median fwhm im a) as [im'|e]; [|now exists e].
    cbn [bind]. now apply IH.
Qed.

Lemma bkg_sub_non_finite_position_witness :
  exists e, bkg_sub annulus_plain_median flat_81
                    [mkStar 40 40 1000 1 5000; mkStar nan 40 900 2 5000] 2 = Raise e.
Proof.
  apply (bkg_sub_non_finite_position annulus_plain_median flat_81 _ 2
           (mkStar nan 40 900 2 5000)).
  - right. left. reflexivity.
  - reflexivity.
Defined.

(** ** FWHM estimator: what a call leaves and returns *)

Lemma faded_trans (x y z : float) : faded x y -> faded y z -> faded x z.
Proof. unfold faded. intros [-> | ->] [-> | ->]; auto. Qed.

Lemma Forall2_trans {A : Type} (R : A -> A -> Prop) :
  (forall x y z, R x y -> R y z -> R x z) ->
  forall l1 l2 l3, Forall2 R l1 l2 -> Forall2 R l2 l3 -> Forall2 R l1 l3.
Proof.
  intros HR l1 l2 l3 H12. revert l3.
  induction H12 as [|a b l1 l2 Hab H12 IH]; intros l3 H23; inversion H23; subst;
    constructor; eauto.
Qed.

Lemma image_faded_trans (a b c : image) :
  Forall2 (Forall2 faded) a b -> Forall2 (Forall2 faded) b c ->
  Forall2 (Forall2 faded) a c.
Proof.
  apply Forall2_trans. apply Forall2_trans. exact faded_trans.
Qed.

Lemma image_faded_refl (a : image) : Forall2 (Forall2 faded) a a.
Proof. apply Forall2_same. intros row. apply Forall2_same. now left. Qed.

(** A rejecting pass leaves the array with one cutout zeroed, keeps the
    counter it was given, and returns (0, 0) where it returns. *)
Lemma rescan_leaves (im : image) (size r c count : Z)
      (fwhm im_sig : option float) (fits : nat) :
  let im' := zero_slice2 im (r - size) (r + size) (c - size) (c + size) in
  match rescan im size r c count fwhm im_sig fits with
  | inl st' => ls_image st' = im' /\ ls_count st' = count
  | inr out =>
      out_image out = im' /\ out_count out = count /\
      (out_value out = Ok (0, 0) \/ exists e, out_value out = Raise e)
  end.
Proof.
  cbv zeta. unfold rescan.
  destruct (np_max2 _) as [m|e]; cbn; [|eauto].
  destruct (100 <? count)%Z; cbn; [auto|].
  destruct (m <? 1000); cbn; auto.
Qed.

Section PassFacts.

Variable curve_fit : image -> Z -> float -> option popt.
Variables (size : Z) (median_val : float).

(** One pass, whatever the state: the array is kept or has one cutout
    zeroed; a pass that leaves the loop after the guard has counted
    itself; a value it returns is (0, 0), or the pair of a fit accepted
    on the cutout around the first position of [max_peak] in the array
    the pass found and leaves, or what the guard found bound. *)
Lemma loop_pass_leaves (st : loop_state) :
  match loop_pass curve_fit size median_val st with
  | inl st' => Forall2 (Forall2 faded) (ls_image st') (ls_image st)
  | inr out =>
      Forall2 (Forall2 faded) (out_image out) (ls_image st) /\
      ((0 <=? ls_max_peak st) = true -> out_count out = (ls_count st + 1)%Z) /\
      ((0 <=? ls_max_peak st) = false ->
         out_image out = ls_image st /\
         out_value out = return_pair (ls_fwhm st) (ls_im_sig st)) /\
      forall f s, out_value out = Ok (f, s) ->
        (0 <=? ls_max_peak st) = true ->
        np_max2 (interior (ls_image st)) = Ok (ls_max_peak st) ->
        (f = 0 /\ s = 0) \/ fit_pair curve_fit size median_val (out_image out) f s
  end.
Proof.
  assert (Hres : forall r c fw sg fits,
            match rescan (ls_image st) size r c (ls_count st + 1) fw sg fits with
            | inl st' => Forall2 (Forall2 faded) (ls_image st') (ls_image st)
            | inr out =>
                Forall2 (Forall2 faded) (out_image out) (ls_image st) /\
                out_count out = (ls_count st + 1)%Z /\
                forall f s, out_value out = Ok (f, s) -> f = 0 /\ s = 0
            end).
  { intros r c fw sg fits.
    pose proof (rescan_leaves (ls_image st) size r c (ls_count st + 1) fw sg fits) as H.
    cbv zeta in H.
    destruct (rescan (ls_image st) size r c (ls_count st + 1) fw sg fits) as [st'|out].
    - destruct H as [-> _]. apply zero_slice2_faded.
    - destruct H as (-> & Hc & Hv). split; [apply zero_slice2_faded|].
      split; [exact Hc|]. intros f s E.
      destruct Hv as [Hv | [e Hv]]; rewrite Hv in E; [|discriminate].
      injection E as <- <-. now split. }
  unfold loop_pass.
  destruct (0 <=? ls_max_peak st) eqn:Eg; cbn [negb].
  2:{ cbn. repeat split; try discriminate; auto using image_faded_refl. }
  destruct (where_first (interior (ls_image st)) (ls_max_peak st)) as [[rs cs]|] eqn:Ew.
  2:{ cbn. repeat split; try discriminate; auto using image_faded_refl. }
  destruct (ls_max_peak st <? 50000) eqn:Esat.
  2:{ match goal with |- match ?R with _ => _ end =>
        pose proof (Hres (Z.of_nat rs + 100)%Z (Z.of_nat cs + 100)%Z
                         (ls_fwhm st) (ls_im_sig st) (ls_fits st)) as H;
        destruct R as [st'|out] end; [exact H|].
      destruct H as (Hf & Hc & Hv). repeat split; auto; discriminate. }
  set (star := slice2 _ _ _ _ _).
  destruct (curve_fit star size median_val) as [p|] eqn:Efit.
  - destruct (2 <? (fit_sig_x p + fit_sig_y p) / 2 * gaussian_sigma_to_fwhm) eqn:E2.
    + cbn. repeat split; try discriminate; auto using image_faded_refl.
      intros f s [= <- <-] _ Hmax. right.
      exists (ls_max_peak st), rs, cs, p. repeat split; trivial.
    + match goal with |- match ?R with _ => _ end =>
        pose proof (Hres (Z.of_nat rs + 100)%Z (Z.of_nat cs + 100)%Z
                      (Some ((fit_sig_x p + fit_sig_y p) / 2 * gaussian_sigma_to_fwhm))
                      (Some ((fit_sig_x p + fit_sig_y p) / 2)) (S (ls_fits st))) as H;
        destruct R as [st'|out] end; [exact H|].
      destruct H as (Hf & Hc & Hv). repeat split; auto; discriminate.
  - change (2 <? 0) with false. cbv iota.
    match goal with |- match ?R with _ => _ end =>
        pose proof (Hres (Z.of_nat rs + 100)%Z (Z.of_nat cs + 100)%Z
                      (Some 0) (ls_im_sig st) (S (ls_fits st))) as H;
        destruct R as [st'|out] end; [exact H|].
    destruct H as (Hf & Hc & Hv). repeat split; auto; discriminate.
Qed.

End PassFacts.

Section RunFacts.

Variable curve_fit : image -> Z -> float -> option popt.
Variables (size : Z) (median_val : float).

(** A run of the loop from a state that satisfies the invariant. *)
Lemma loop_run (fuel : nat) (st : loop_state) (out : outcome) :
  loop_inv st -> loop curve_fit fuel size median_val st = Some out ->
  Forall2 (Forall2 faded) (out_image out) (ls_image st) /\
  ((0 <=? ls_max_peak st) = true -> (ls_count st + 1 <= out_count out)%Z) /\
  ((0 <=? ls_max_peak st) = false ->
     out_image out = ls_image st /\ out_value out = Raise UnboundLocalError) /\
  forall f s, out_value out = Ok (f, s) ->
    (f = 0 /\ s = 0) \/ fit_pair curve_fit size median_val (out_image out) f s.
Proof.
  revert st. induction fuel as [|fuel IH]; intros st Hinv; [discriminate|].
  cbn [loop].
  pose proof (loop_pass_spec curve_fit size median_val st Hinv) as Hspec.
  pose proof (loop_pass_leaves curve_fit size median_val st) as Hleaves.
  assert (Hguard : (0 <=? ls_max_peak st) = false ->
                   return_pair (ls_fwhm st) (ls_im_sig st) = Raise UnboundLocalError).
  { intros Eg. destruct Hinv as (_ & Hc & _ & Hzero & Hfloor).
    destruct (Z.eq_dec (ls_count st) 0) as [E0 | E0].
    - destruct (Hzero E0) as [-> ->]. reflexivity.
    - assert (H1000 : (1000 <=? ls_max_peak st) = true) by (apply Hfloor; lia).
      assert (H0 : (0 <=? ls_max_peak st) = true)
        by (apply FloatOrder.leb_trans with 1000; [reflexivity | exact H1000]).
      congruence. }
  destruct (loop_pass curve_fit size median_val st) as [st'|out'] eqn:Epass.
  - intros Hloop. destruct Hspec as (Hinv' & Hc' & _).
    destruct (IH st' Hinv' Hloop) as (Hf & Hc & Hg & Hv).
    assert (Hcount : (ls_count st' <= out_count out)%Z).
    { destruct (0 <=? ls_max_peak st') eqn:Eg'.
      - specialize (Hc eq_refl). lia.
      - destruct (Hg eq_refl) as [_ Hraise].
        destruct fuel as [|fuel']; [discriminate|].
        cbn [loop] in Hloop. unfold loop_pass in Hloop. rewrite Eg' in Hloop.
        cbn [negb] in Hloop. injection Hloop as <-. cbn. lia. }
    split; [eapply image_faded_trans; eassumption|].
    split; [intros _; lia|]. split; [|exact Hv].
    intros Eg. unfold loop_pass in Epass. rewrite Eg in Epass. discriminate.
  - intros [= <-]. destruct Hleaves as (Hf & Hc & Hg & Hv).
    split; [exact Hf|]. split; [intros Eg; rewrite (Hc Eg); lia|].
    split.
    + intros Eg. destruct (Hg Eg) as [Him Hval]. split; [exact Him|].
      rewrite Hval. now apply Hguard.
    + intros f s E. destruct (0 <=? ls_max_peak st) eqn:Eg.
      * apply Hv; trivial. apply Hinv.
      * destruct (Hg eq_refl) as [_ Hval]. rewrite Hval, (Hguard eq_refl) in E.
        discriminate.
Qed.

End RunFacts.

(** The state the loop starts from satisfies the invariant. *)
Lemma loop_inv_start (im : image) (m : float) :
  np_max2 (interior im) = Ok m -> loop_inv (mkLoop im m 0 None None 0).
Proof.
  intros Hm. unfold loop_inv; cbn. repeat split; trivial; lia.
Qed.

(** X9. After any call of [find_fwhm] the caller's array has the shape
    it had, and every pixel either keeps its value or reads 0. *)
Theorem find_fwhm_keeps_or_zeroes
      (sigma_clipped_median : image -> float)
      (curve_fit : image -> Z -> float -> option popt)
      (im : image) (size : Z) :
  exists out,
    find_fwhm sigma_clipped_median curve_fit im size = Some out /\
    Forall2 (Forall2 faded) (out_image out) im.
Proof.
  destruct (find_fwhm_run sigma_clipped_median curve_fit im size) as (out & E & _).
  exists out. split; [exact E|].
  unfold find_fwhm, find_fwhm_fuel in E.
  destruct (np_max2 (interior im)) as [m|e] eqn:Em.
  - apply loop_run in E; [|now apply loop_inv_start]. apply E.
  - injection E as <-. apply image_faded_refl.
Qed.

(** X10. A pair [find_fwhm] returns is either (0, 0) or comes from a
    fit that succeeded on the last cutout.  The cutout is
    [image[r-size:r+size, c-size:c+size]] of the caller's array as the
    call leaves it (the input with the rejected cutouts zeroed), around
    the first position ([r], [c]) of its interior maximum, which is at
    least 0 and below 50000; the fit is run with [size] and the
    sigma-clipped median of the input; im_sig is the mean of the two
    fitted sigmas, fwhm is im_sig times [gaussian_sigma_to_fwhm], and
    fwhm is above 2.  So a fit that raises never ends the search with
    its own result: when no fit succeeds, the only pair returned is
    (0, 0). *)
Theorem find_fwhm_returned_pair
      (sigma_clipped_median : image -> float)
      (curve_fit : image -> Z -> float -> option popt)
      (im : image) (size : Z) (out : outcome) (f s : float) :
  find_fwhm sigma_clipped_median curve_fit im size = Some out ->
  out_value out = Ok (f, s) ->
  ((f = 0 /\ s = 0) \/
   fit_pair curve_fit size (sigma_clipped_median im) (out_image out) f s) /\
  ((forall star, curve_fit star size (sigma_clipped_median im) = None) ->
   f = 0 /\ s = 0).
Proof.
  unfold find_fwhm, find_fwhm_fuel. intros E Hv.
  assert (H : (f = 0 /\ s = 0) \/
              fit_pair curve_fit size (sigma_clipped_median im) (out_image out) f s).
  { destruct (np_max2 (interior im)) as [m|e] eqn:Em.
    - apply loop_run in E; [|now apply loop_inv_start].
      destruct E as (_ & _ & _ & H). now apply H.
    - injection E as <-. discriminate. }
  split; [exact H|]. intros Hnone.
  destruct H as [H | (m & rs & cs & p & _ & _ & _ & _ & Hfit & _)]; [exact H|].
  rewrite Hnone in Hfit. discriminate.
Qed.

(** X10 on the 201 x 201 image with one peak of 5000 at (100, 100) and a
    fit that reports sigma = 3 on both axes: the pair returned is
    (3 * [gaussian_sigma_to_fwhm], 3), fitted on the cutout around
    (100, 100) of the image, which is left as it was. *)
Lemma find_fwhm_returned_pair_witness :
  fit_pair fit_sigma_3 100 (zero_median peak_201) peak_201
           (3 * gaussian_sigma_to_fwhm) 3.
Proof.
  set (o := find_fwhm zero_median fit_sigma_3 peak_201 100).
  set (out := match o with
              | Some x => x
              | None => mkOutcome (Raise ValueError) [] 0 0 ExitRaise
              end).
  assert (E : o = Some out) by (vm_compute; reflexivity).
  assert (Hv : out_value out = Ok (3 * gaussian_sigma_to_fwhm, 3))
    by (vm_compute; reflexivity).
  assert (Him : out_image out = peak_201) by (vm_compute; reflexivity).
  destruct (find_fwhm_returned_pair zero_median fit_sigma_3 peak_201 100 out _ _ E Hv)
    as [[[H0 _] | H] _].
  - exfalso. revert H0. vm_compute. discriminate.
  - rewrite Him in H. exact H.
Defined.

(** X11. [find_fwhm] returns a pair exactly when the interior of the
    image has a maximum that is at least 0.  With no interior it raises
    [ValueError]; with a negative or NaN maximum it raises
    [UnboundLocalError]; in both cases the image is left as it was. *)
Theorem find_fwhm_returns_or_raises
      (sigma_clipped_median : image -> float)
      (curve_fit : image -> Z -> float -> option popt)
      (im : image) (size : Z) :
  exists out,
    find_fwhm sigma_clipped_median curve_fit im size = Some out /\
    match np_max2 (interior im) with
    | Raise _ => out_value out = Raise ValueError /\ out_image out = im
    | Ok m =>
        if 0 <=? m then exists f s, out_value out = Ok (f, s)
        else out_value out = Raise UnboundLocalError /\ out_image out = im
    end.
Proof.
  destruct (find_fwhm_run sigma_clipped_median curve_fit im size) as (out & E & Hexit & _).
  exists out. split; [exact E|].
  unfold find_fwhm, find_fwhm_fuel in E.
  destruct (np_max2 (interior im)) as [m|e] eqn:Em.
  - apply loop_run in E; [|now apply loop_inv_start].
    destruct E as (_ & Hc & Hg & _). cbn in Hc, Hg.
    destruct (0 <=? m).
    + specialize (Hc eq_refl). unfold exit_spec in Hexit.
      destruct (out_exit out).
      * destruct Hexit as [H0 _]. lia.
      * destruct Hexit as (_ & f & s & Hv & _). eauto.
      * destruct Hexit as [_ Hv]. eauto.
      * destruct Hexit as (_ & Hv & _). eauto.
      * destruct Hexit as [H0 _]. lia.
    + destruct (Hg eq_refl) as [Him Hv]. now split.
  - injection E as <-. cbn. split; [|reflexivity].
    f_equal. eapply np_max_raise. exact Em.
Qed.

(** ** Star matcher: the rows it returns and when it fails *)

Lemma mapM_Forall2 {A B : Type} (f : A -> result B) (l : list A) (bs : list B) :
  mapM f l = Ok bs -> Forall2 (fun a b => f a = Ok b) l bs.
Proof.
  revert bs. induction l as [|a l IH]; intros bs; cbn.
  - intros [= <-]. constructor.
  - destruct (f a) as [b|e] eqn:Ea; [|discriminate]. cbn.
    destruct (mapM f l) as [bs'|e]; [|discriminate]. cbn.
    intros [= <-]. constructor; auto.
Qed.

Lemma mapM_raise_inv {A B : Type} (f : A -> result B) (l : list A) (e : exn) :
  mapM f l = Raise e -> exists a, In a l /\ f a = Raise e.
Proof.
  induction l as [|a l IH]; cbn; [discriminate|].
  destruct (f a) as [b|e'] eqn:Ea; cbn.
  - destruct (mapM f l) as [bs|e']; cbn; [discriminate|].
    intros [= ->]. destruct (IH eq_refl) as (x & Hx & Hfx). exists x. auto.
  - intros [= ->]. exists a. auto.
Qed.

(** Two elements a filter keeps stand at two different indices. *)
Lemma filter_two_inv {A : Type} (p : A -> bool) (l : list A) (a b : A) (rest : list A) :
  filter p l = a :: b :: rest ->
  exists j k, (j < k)%nat /\ nth_error l j = Some a /\ nth_error l k = Some b /\
              p a = true /\ p b = true.
Proof.
  induction l as [|x l IH]; cbn; [discriminate|].
  destruct (p x) eqn:Ex.
  - intros [= -> Hrest].
    assert (Hb : In b (filter p l)) by (rewrite Hrest; now left).
    apply filter_In in Hb. destruct Hb as [Hb Hpb].
    destruct (In_nth_error _ _ Hb) as [k Hk].
    exists 0%nat, (S k). repeat split; trivial. lia.
  - intros H. destruct (IH H) as (j & k & Hlt & Hj & Hk & Ha & Hb).
    exists (S j), (S k). repeat split; trivial. lia.
Qed.

(** A target star at the minimum distance is a nearest one. *)
Lemma selected_nearest (s : source) (stars2 : list source) (d : float) (ds : list float)
      (t : source) :
  map (dist s) stars2 = d :: ds ->
  In t stars2 -> (dist s t =? fold_left fmin ds d) = true ->
  forall u, In u stars2 -> (dist s t <=? dist s u) = true.
Proof.
  intros Eds Ht Heq u Hu. set (m := fold_left fmin ds d) in *.
  assert (Hm : is_nan m = false).
  { apply FloatOrder.eqb_true in Heq. tauto. }
  unfold m in Hm. rewrite fold_fmin_is_nan in Hm.
  apply orb_false_iff in Hm. destruct Hm as [Hd Hds].
  destruct (fold_fmin_least ds d Hd Hds) as [_ Hle].
  apply FloatOrder.leb_trans with m; [now apply FloatOrder.eqb_leb|].
  apply Hle. rewrite <- Eds. now apply in_map.
Qed.

(** What the loop body does for one reference star. *)
Lemma shift_of_cases (s : source) (stars2 : list source) :
  match shift_of (xcentroid s) (ycentroid s) (Some stars2) with
  | Ok row =>
      row = nan_row \/
      exists t, In t stars2 /\ (dist s t <? 20) = true /\
                (forall u, In u stars2 -> (dist s t <=? dist s u) = true) /\
                row = matched_row s t
  | Raise e =>
      e = ValueError /\
      (stars2 = [] \/
       exists j k t u, j <> k /\ nearest s stars2 j t /\ nearest s stars2 k u)
  end.
Proof.
  rewrite shift_of_some.
  destruct (map (dist s) stars2) as [|d ds] eqn:Eds.
  { cbn. split; [reflexivity|]. left. destruct stars2; [reflexivity | discriminate]. }
  cbn [np_min bind]. cbv zeta. set (m := fold_left fmin ds d).
  destruct (filter (fun t => dist s t =? m) stars2) as [|a [|b rest]] eqn:Esel.
  - cbn. now left.
  - cbn [map truth bind]. destruct (dist s a <? 20) eqn:Enear; [|now left].
    cbn [item bind]. right. exists a.
    assert (Ha : In a (filter (fun t => dist s t =? m) stars2))
      by (rewrite Esel; now left).
    apply filter_In in Ha. destruct Ha as [Ha Heq].
    repeat split; trivial. eapply selected_nearest; eassumption.
  - cbn. split; [reflexivity|]. right.
    destruct (filter_two_inv _ _ _ _ _ Esel) as (j & k & Hlt & Hj & Hk & Ha & Hb).
    exists j, k, a, b. split; [lia|]. split.
    + split; [exact Hj|].
      eapply selected_nearest; try eassumption. eapply nth_error_In, Hj.
    + split; [exact Hk|].
      eapply selected_nearest; try eassumption. eapply nth_error_In, Hk.
Qed.

(** X12. Whenever [calculate_shift] returns, with or without ties
    elsewhere in the tables, it returns one row per reference star, in
    order, and each row is either the NaN row or (distance, dx, dy) to a
    target star that no other target star is closer than and whose
    distance is strictly under 20: an offset of 20 px or more is never
    recorded. *)
Theorem calculate_shift_recorded_rows (stars1 stars2 : list source)
                                      (diff : list shift_row) :
  calculate_shift (Some stars1) (Some stars2) = Ok diff ->
  Forall2 (fun s row =>
             row = nan_row \/
             exists t, In t stars2 /\ (dist s t <? 20) = true /\
                       (forall u, In u stars2 -> (dist s t <=? dist s u) = true) /\
                       row = matched_row s t)
          stars1 diff.
Proof.
  rewrite calculate_shift_some. intros H. apply mapM_Forall2 in H.
  eapply Forall2_impl; [|exact H]. intros s row E. cbv beta in E.
  pose proof (shift_of_cases s stars2) as C. rewrite E in C. exact C.
Qed.

Lemma calculate_shift_recorded_rows_witness :
  Forall2 (fun s row =>
             row = nan_row \/
             exists t, In t [mkSource 2 53 54 5000 90; mkSource 3 80 80 5000 90] /\
                       (dist s t <? 20) = true /\
                       (forall u, In u [mkSource 2 53 54 5000 90; mkSource 3 80 80 5000 90] ->
                                  (dist s t <=? dist s u) = true) /\
                       row = matched_row s t)
          [mkSource 1 50 50 5000 100; mkSource 4 200 200 5000 100]
          [(5, -3, -4); nan_row].
Proof.
  apply calculate_shift_recorded_rows. vm_compute. reflexivity.
Defined.

(** X13. With both tables present [calculate_shift] raises nothing but
    [ValueError], and it raises exactly when there is a reference star
    and either the target table is empty or some reference star has two
    nearest target stars. *)
Theorem calculate_shift_raises_iff (stars1 stars2 : list source) :
  (forall e, calculate_shift (Some stars1) (Some stars2) = Raise e -> e = ValueError) /\
  (calculate_shift (Some stars1) (Some stars2) = Raise ValueError <->
   stars1 <> [] /\
   (stars2 = [] \/
    exists s j k t u, In s stars1 /\ j <> k /\
                      nearest s stars2 j t /\ nearest s stars2 k u)).
Proof.
  rewrite calculate_shift_some.
  assert (Hinv : forall e,
            mapM (fun s => shift_of (xcentroid s) (ycentroid s) (Some stars2)) stars1
            = Raise e ->
            e = ValueError /\ stars1 <> [] /\
            (stars2 = [] \/
             exists s j k t u, In s stars1 /\ j <> k /\
                               nearest s stars2 j t /\ nearest s stars2 k u)).
  { intros e H. apply mapM_raise_inv in H. destruct H as (s & Hs & E).
    pose proof (shift_of_cases s stars2) as C. rewrite E in C.
    destruct C as [-> C]. split; [reflexivity|]. split.
    - intros ->. destruct Hs.
    - destruct C as [-> | (j & k & t & u & Hjk & Hj & Hk)]; [now left|].
      right. exists s, j, k, t, u. auto. }
  split; [intros e H; apply (Hinv e H)|]. split; [intros H; apply (Hinv _ H)|].
  intros [Hne [-> | (s & j & k & t & u & Hs & Hjk & Hj & Hk)]].
  - destruct stars1 as [|s rest]; [congruence|]. reflexivity.
  - apply mapM_raise with (a := s); trivial.
    + eapply shift_of_tie; eassumption.
    + intros b e' _. apply shift_of_raise.
Qed.

(** X14. A missing table.  Without a reference table the call raises
    [TypeError]; with an empty reference table it returns no row and
    never looks at the target, which may be missing; with a reference
    star and no target table it raises [TypeError]. *)
Theorem calculate_shift_missing_table (stars2 : detection) (s : source)
                                      (rest : list source) :
  calculate_shift None stars2 = Raise TypeError /\
  calculate_shift (Some []) stars2 = Ok [] /\
  calculate_shift (Some (s :: rest)) None = Raise TypeError.
Proof.
  repeat split.
Qed.

(** ** Registration orchestrator: what reaches the combiner *)

Lemma roll_image_rolls (im im' : image) (diff : list shift_row) (threshold : float) :
  roll_image im diff threshold = Ok im' ->
  im' = im \/ exists dy dx, im' = np_roll im dy dx.
Proof.
  unfold roll_image. destruct (threshold <=? _); [|intros [= <-]; now left].
  destruct (np_int _) as [dx|e]; [|discriminate]. cbn [bind].
  destruct (np_int _) as [dy|e]; [|discriminate]. cbn [bind].
  intros [= <-]. right. now exists dy, dx.
Qed.

Lemma mapM_length {A B : Type} (f : A -> result B) (l : list A) (bs : list B) :
  mapM f l = Ok bs -> length bs = length l.
Proof.
  intros H. apply mapM_Forall2 in H. symmetry. eapply Forall2_length, H.
Qed.

Lemma Forall2_combine {A B C : Type} (R : A * B -> C -> Prop)
      (l : list A) (ds : list B) (cs : list C) :
  length l = length ds ->
  Forall2 R (combine l ds) cs ->
  Forall2 (fun a c => exists d, R (a, d) c) l cs.
Proof.
  revert ds cs. induction l as [|a l IH]; intros [|d ds] cs Hlen H;
    try discriminate; cbn in H; inversion H; subst; constructor; eauto.
Qed.

(** X15. When [image_combiner] returns a combined image, the reference
    frame (frame 0) has a detection table, every frame has one unless
    the reference table is empty, and the combiner was given one image
    per frame, in order, each of them its frame or a cyclic roll of its
    frame. *)
Theorem image_combiner_combines_rolls
      (find_stars : image -> float -> float -> detection)
      (median_combiner : list image -> result image)
      (im_data : list image) (im_sig : float) (median_image : image) :
  image_combiner find_stars median_combiner im_data im_sig = Ok (Some median_image) ->
  (exists first rest t0,
     im_data = first :: rest /\ find_stars first im_sig 100000 = Some t0 /\
     (t0 <> [] ->
      Forall (fun i => find_stars i im_sig 100000 <> None) im_data)) /\
  exists images,
    median_combiner images = Ok median_image /\
    Forall2 (fun i image_shift =>
               image_shift = i \/ exists dy dx, image_shift = np_roll i dy dx)
            im_data images.
Proof.
  unfold image_combiner.
  set (stars := map (fun i => find_stars i im_sig 100000) im_data).
  destruct (last_bound stars) as [[t|]|] eqn:Elast; try discriminate.
  destruct (mapM _ stars) as [diffs|e] eqn:Ediffs; [|discriminate]. cbn [bind].
  destruct (mapM _ (combine im_data diffs)) as [images|e] eqn:Eimages; [|discriminate].
  cbn [bind].
  destruct (median_combiner images) as [m|e] eqn:Em; [|discriminate]. cbn [bind].
  intros [= <-]. split.
  - destruct im_data as [|first rest]; [discriminate Elast|].
    exists first, rest. unfold stars in Ediffs. cbn [map nth] in Ediffs.
    apply mapM_Forall2 in Ediffs.
    destruct (find_stars first im_sig 100000) as [t0|] eqn:E0.
    2:{ inversion Ediffs as [|a b l bs Hab]; subst. discriminate Hab. }
    exists t0. repeat split. intros Hne.
    apply Forall_forall. intros i [<- | Hi] Hnone; [congruence|].
    assert (Hin : In None (map (fun i => find_stars i im_sig 100000) rest)).
    { rewrite <- Hnone. exact (in_map (fun i0 => find_stars i0 im_sig 100000) rest i Hi). }
    inversion Ediffs as [|a b l bs _ Hrest]; subst. clear -Hrest Hin Hne.
    induction Hrest as [|a b l bs Hab H IH]; [destruct Hin|].
    destruct Hin as [-> | Hin]; [|now apply IH].
    destruct t0; [congruence | discriminate].
  - exists images. split; [exact Em|].
    apply mapM_length in Ediffs. unfold stars in Ediffs. rewrite length_map in Ediffs.
    apply mapM_Forall2 in Eimages.
    apply Forall2_combine in Eimages; [|now symmetry].
    eapply Forall2_impl; [|exact Eimages]. intros i im' [d Hd]. cbn in Hd.
    eapply roll_image_rolls, Hd.
Qed.

Lemma image_combiner_combines_rolls_witness :
  exists images,
    first_frame_combiner images = Ok image_3x4 /\
    Forall2 (fun i image_shift =>
               image_shift = i \/ exists dy dx, image_shift = np_roll i dy dx)
            [image_3x4; image_3x4] images.
Proof.
  apply (image_combiner_combines_rolls one_star_detector first_frame_combiner
           [image_3x4; image_3x4] 5 image_3x4).
  vm_compute. reflexivity.
Defined.

(** ** Image importer: all or nothing *)

Lemma import_loop_spec {array header fits_error : Type}
      (fits_open : String.string -> fits_error + list (array * header))
      (im_list : list String.string) (p : String.string)
      (im_data : list array) (im_headers : list header) :
  match import_loop fits_open im_list p im_data im_headers with
  | inr (data, headers) =>
      exists exts,
        Forall2 (second_hdu fits_open p) im_list exts /\
        data = im_data ++ map fst exts /\
        headers = im_headers ++ map snd exts
  | inl err =>
      exists done i rest,
        im_list = done ++ i :: rest /\
        (exists exts, Forall2 (second_hdu fits_open p) done exts) /\
        fails_with fits_open p i err
  end.
Proof.
  revert im_data im_headers.
  induction im_list as [|i rest IH]; intros im_data im_headers; cbn [import_loop].
  - exists []. repeat split; [constructor | |]; cbn; now rewrite app_nil_r.
  - cbv zeta. destruct (fits_open (String.append p i)) as [e|hdu] eqn:Eopen.
    { exists [], i, rest. repeat split; [exists []; constructor | exact Eopen]. }
    destruct (nth_error hdu 1) as [[data header_]|] eqn:Ehdu.
    2:{ exists [], i, rest. repeat split; [exists []; constructor|].
        cbn. now exists hdu. }
    specialize (IH (im_data ++ [data]) (im_headers ++ [header_])).
    destruct (import_loop fits_open rest p _ _) as [err|[D H]].
    + destruct IH as (done & j & rest' & -> & [exts Hexts] & Hfail).
      exists (i :: done), j, rest'. repeat split; trivial.
      exists ((data, header_) :: exts). constructor; trivial. now exists hdu.
    + destruct IH as (exts & Hexts & -> & ->).
      exists ((data, header_) :: exts). repeat split.
      * constructor; trivial. now exists hdu.
      * now rewrite <- app_assoc.
      * now rewrite <- app_assoc.
Qed.

(** X16. [import_images] is all or nothing.  When it returns, the two
    lists hold, position by position, the data and the header of the
    second HDU of the file [p + name] for every name of [im_list].  When
    it fails, it is at the first name whose file does not open or has
    no second HDU, every earlier file having been read. *)
Theorem import_images_all_or_nothing {array header fits_error : Type}
      (fits_open : String.string -> fits_error + list (array * header))
      (im_list : list String.string) (p : String.string) :
  match import_images fits_open im_list p with
  | inr (im_data, im_headers) =>
      exists exts,
        Forall2 (second_hdu fits_open p) im_list exts /\
        im_data = map fst exts /\ im_headers = map snd exts
  | inl err =>
      exists done i rest,
        im_list = done ++ i :: rest /\
        (exists exts, Forall2 (second_hdu fits_open p) done exts) /\
        fails_with fits_open p i err
  end.
Proof.
  unfold import_images. exact (import_loop_spec fits_open im_list p [] []).
Qed.
